(** * The scan event dispatcher of bbot ([bbot/scanner/manager.py])

    A shallow embedding of [ScanManager]: the object store of events, the two
    duplicate trackers, the shared ingress queue, and the operations
    [is_incoming_duplicate], [is_outgoing_duplicate], [_event_precheck],
    [queue_event], [distribute_event], [_emit_event], [emit_event] and
    [init_events], followed by the properties checked against them.

    Python objects are references: events live in a store indexed by
    identifiers, and every attribute write goes through the store, so two
    names for one event (an event and the [source] of its child) see each
    other's writes. *)

From Stdlib Require Import ZArith String List Bool Lia.
From stdpp Require Import base gmap sets list strings sorting.

Local Open Scope Z_scope.

(** ** Data model *)

(** Modelled from the spec: the [Event] class is declared outside
    [manager.py]; its attributes are the ones of the data model (section 3),
    each a plain read/write attribute.  [hash] is the canonical identity
    [hash(event)] over (type, data); [source] and [module] are references
    ([None] when unset); [scan_ref] records whether [event.scan] was set. *)
Record Event := {
  data : string;
  hash : Z;
  source : option nat;
  module : option nat;
  scope_distance : Z;
  web_spider_distance : Z;
  internal : bool;
  tags : gset string;
  host : option string;
  _dummy : bool;
  _graph_important : bool;
  always_emit : bool;
  quick_emit : bool;
  module_priority : Z;
  scan_ref : bool
}.

Definition set_source (v : option nat) (ev : Event) : Event :=
  {| data := data ev; hash := hash ev; source := v; module := module ev;
     scope_distance := scope_distance ev;
     web_spider_distance := web_spider_distance ev; internal := internal ev;
     tags := tags ev; host := host ev; _dummy := _dummy ev;
     _graph_important := _graph_important ev; always_emit := always_emit ev;
     quick_emit := quick_emit ev; module_priority := module_priority ev;
     scan_ref := scan_ref ev |}.

Definition set_module (v : option nat) (ev : Event) : Event :=
  {| data := data ev; hash := hash ev; source := source ev; module := v;
     scope_distance := scope_distance ev;
     web_spider_distance := web_spider_distance ev; internal := internal ev;
     tags := tags ev; host := host ev; _dummy := _dummy ev;
     _graph_important := _graph_important ev; always_emit := always_emit ev;
     quick_emit := quick_emit ev; module_priority := module_priority ev;
     scan_ref := scan_ref ev |}.

Definition set_scope_distance (v : Z) (ev : Event) : Event :=
  {| data := data ev; hash := hash ev; source := source ev;
     module := module ev; scope_distance := v;
     web_spider_distance := web_spider_distance ev; internal := internal ev;
     tags := tags ev; host := host ev; _dummy := _dummy ev;
     _graph_important := _graph_important ev; always_emit := always_emit ev;
     quick_emit := quick_emit ev; module_priority := module_priority ev;
     scan_ref := scan_ref ev |}.

Definition set_web_spider_distance (v : Z) (ev : Event) : Event :=
  {| data := data ev; hash := hash ev; source := source ev;
     module := module ev; scope_distance := scope_distance ev;
     web_spider_distance := v; internal := internal ev;
     tags := tags ev; host := host ev; _dummy := _dummy ev;
     _graph_important := _graph_important ev; always_emit := always_emit ev;
     quick_emit := quick_emit ev; module_priority := module_priority ev;
     scan_ref := scan_ref ev |}.

Definition set_internal (v : bool) (ev : Event) : Event :=
  {| data := data ev; hash := hash ev; source := source ev;
     module := module ev; scope_distance := scope_distance ev;
     web_spider_distance := web_spider_distance ev; internal := v;
     tags := tags ev; host := host ev; _dummy := _dummy ev;
     _graph_important := _graph_important ev; always_emit := always_emit ev;
     quick_emit := quick_emit ev; module_priority := module_priority ev;
     scan_ref := scan_ref ev |}.

Definition set_dummy (v : bool) (ev : Event) : Event :=
  {| data := data ev; hash := hash ev; source := source ev;
     module := module ev; scope_distance := scope_distance ev;
     web_spider_distance := web_spider_distance ev; internal := internal ev;
     tags := tags ev; host := host ev; _dummy := v;
     _graph_important := _graph_important ev; always_emit := always_emit ev;
     quick_emit := quick_emit ev; module_priority := module_priority ev;
     scan_ref := scan_ref ev |}.

Definition set_graph_important (v : bool) (ev : Event) : Event :=
  {| data := data ev; hash := hash ev; source := source ev;
     module := module ev; scope_distance := scope_distance ev;
     web_spider_distance := web_spider_distance ev; internal := internal ev;
     tags := tags ev; host := host ev; _dummy := _dummy ev;
     _graph_important := v; always_emit := always_emit ev;
     quick_emit := quick_emit ev; module_priority := module_priority ev;
     scan_ref := scan_ref ev |}.

Definition set_module_priority (v : Z) (ev : Event) : Event :=
  {| data := data ev; hash := hash ev; source := source ev;
     module := module ev; scope_distance := scope_distance ev;
     web_spider_distance := web_spider_distance ev; internal := internal ev;
     tags := tags ev; host := host ev; _dummy := _dummy ev;
     _graph_important := _graph_important ev; always_emit := always_emit ev;
     quick_emit := quick_emit ev; module_priority := v;
     scan_ref := scan_ref ev |}.

Definition set_scan_ref (v : bool) (ev : Event) : Event :=
  {| data := data ev; hash := hash ev; source := source ev;
     module := module ev; scope_distance := scope_distance ev;
     web_spider_distance := web_spider_distance ev; internal := internal ev;
     tags := tags ev; host := host ev; _dummy := _dummy ev;
     _graph_important := _graph_important ev; always_emit := always_emit ev;
     quick_emit := quick_emit ev; module_priority := module_priority ev;
     scan_ref := v |}.

(** Modelled from the spec: the module classes are declared outside
    [manager.py]; the dispatcher reads the attributes of the module contract
    (sections 3 and 6).  [suppress_dupes] and [_outgoing_dedup_hash] are
    optional: [None] stands for a module object that lacks the attribute.
    [name] is what [str(module)] yields. *)
Record Module := {
  name : string;
  priority : Z;
  _hook : bool;
  suppress_dupes : option bool;
  accept_dupes : bool;
  _outgoing_dedup_hash : option (Event -> Z);
  _is_graph_important : Event -> bool
}.

(** The scan collaborator: configuration and predicates the dispatcher only
    reads.  Module objects are created before the dispatcher starts and are
    not mutated by it; [module_object] resolves a module reference,
    [modules] is the by-name mapping [scan.modules] in insertion order. *)
Record Scan := {
  scope_report_distance : Z;
  module_object : nat -> Module;
  modules : list (string * nat);
  root_event : nat;
  target_events : list nat;
  blacklisted : Event -> bool;
  whitelisted : Event -> bool;
  _make_dummy_module : string -> string -> nat
}.

(** ** Values returned by user callbacks *)

#[warnings="-register-all"]
Inductive PyValue :=
| VNone
| VBool (b : bool)
| VInt (z : Z)
| VStr (s : string)
| VTuple (items : list PyValue).

(** Python truthiness, as tested by [if abort_result:]. *)
Definition truthy (v : PyValue) : bool :=
  match v with
  | VNone => false
  | VBool b => b
  | VInt z => negb (z =? 0)
  | VStr s => negb (String.eqb s EmptyString)
  | VTuple items => match items with [] => false | _ => true end
  end.

(** [a, b = v]: succeeds on an iterable of exactly two items; a value that is
    not iterable raises [TypeError], any other length [ValueError]. *)
Definition unpack2 (v : PyValue) : option (PyValue * PyValue) :=
  match v with
  | VTuple [a; b] => Some (a, b)
  | VStr (String c1 (String c2 EmptyString)) =>
      Some (VStr (String c1 EmptyString), VStr (String c2 EmptyString))
  | _ => None
  end.

Inductive exn := AttributeError | ValidationError | OtherError.

Inductive outcome (A : Type) :=
| Returns (a : A)
| Raises (x : exn).
Arguments Returns {A} a.
Arguments Raises {A} x.

(** A user callback receives the event and may mutate event objects; it
    returns a value or raises.  [is_coroutine] tells whether it is an
    [async def]; [execute_sync_or_async] awaits it or calls it accordingly. *)
Record Callback := {
  is_coroutine : bool;
  call : nat -> gmap nat Event -> gmap nat Event * outcome PyValue
}.

(** One keyword argument: absent (or [None]), a value that is not callable,
    or a callable. *)
Inductive KwArg :=
| Missing
| NotCallable
| Callable (f : Callback).

Record Kwargs := {
  abort_if : KwArg;
  on_success_callback : KwArg;
  quick : bool
}.

Definition no_kwargs : Kwargs :=
  {| abort_if := Missing; on_success_callback := Missing; quick := false |}.

Definition is_not_None (k : KwArg) : bool :=
  match k with Missing => false | _ => true end.

(** The one message of the logger the properties observe: the verbose line
    of a vetoing [abort_if], with the values interpolated in it
    ([str(event.module)], the event, and the reason when there is one). *)
Inductive LogRecord :=
| AbortMessage (module_name : string) (event : nat) (reason : option PyValue).

(** ** Dispatcher state *)

(** [events] is the object store.  [incoming_event_queue] lists the items
    passed to [put_nowait], oldest first (a [ShuffleQueue] gives no ordering
    guarantee; only membership is used below).  [module_inbox] records the
    calls [mod.queue_event(event)] made on module sinks, [word_cloud] the
    calls of [absorb_event]. *)
Record ScanManager := {
  events : gmap nat Event;
  incoming_event_queue : list (nat * Kwargs);
  incoming_dup_tracker : gset Z;
  outgoing_dup_tracker : gset Z;
  module_inbox : list (nat * nat);
  word_cloud : list nat;
  verbose_log : list LogRecord;
  _finished_init : bool
}.

(** [ScanManager.__init__]: empty queue, empty trackers. *)
Definition init (store : gmap nat Event) : ScanManager :=
  {| events := store; incoming_event_queue := [];
     incoming_dup_tracker := ∅; outgoing_dup_tracker := ∅;
     module_inbox := []; word_cloud := []; verbose_log := [];
     _finished_init := false |}.

Definition with_events (h : gmap nat Event) (st : ScanManager) :=
  {| events := h; incoming_event_queue := incoming_event_queue st;
     incoming_dup_tracker := incoming_dup_tracker st;
     outgoing_dup_tracker := outgoing_dup_tracker st;
     module_inbox := module_inbox st; word_cloud := word_cloud st;
     verbose_log := verbose_log st; _finished_init := _finished_init st |}.

Definition with_queue (q : list (nat * Kwargs)) (st : ScanManager) :=
  {| events := events st; incoming_event_queue := q;
     incoming_dup_tracker := incoming_dup_tracker st;
     outgoing_dup_tracker := outgoing_dup_tracker st;
     module_inbox := module_inbox st; word_cloud := word_cloud st;
     verbose_log := verbose_log st; _finished_init := _finished_init st |}.

Definition with_incoming (t : gset Z) (st : ScanManager) :=
  {| events := events st; incoming_event_queue := incoming_event_queue st;
     incoming_dup_tracker := t;
     outgoing_dup_tracker := outgoing_dup_tracker st;
     module_inbox := module_inbox st; word_cloud := word_cloud st;
     verbose_log := verbose_log st; _finished_init := _finished_init st |}.

Definition with_outgoing (t : gset Z) (st : ScanManager) :=
  {| events := events st; incoming_event_queue := incoming_event_queue st;
     incoming_dup_tracker := incoming_dup_tracker st;
     outgoing_dup_tracker := t;
     module_inbox := module_inbox st; word_cloud := word_cloud st;
     verbose_log := verbose_log st; _finished_init := _finished_init st |}.

Definition with_inbox (l : list (nat * nat)) (st : ScanManager) :=
  {| events := events st; incoming_event_queue := incoming_event_queue st;
     incoming_dup_tracker := incoming_dup_tracker st;
     outgoing_dup_tracker := outgoing_dup_tracker st;
     module_inbox := l; word_cloud := word_cloud st;
     verbose_log := verbose_log st; _finished_init := _finished_init st |}.

Definition with_word_cloud (l : list nat) (st : ScanManager) :=
  {| events := events st; incoming_event_queue := incoming_event_queue st;
     incoming_dup_tracker := incoming_dup_tracker st;
     outgoing_dup_tracker := outgoing_dup_tracker st;
     module_inbox := module_inbox st; word_cloud := l;
     verbose_log := verbose_log st; _finished_init := _finished_init st |}.

Definition with_log (l : list LogRecord) (st : ScanManager) :=
  {| events := events st; incoming_event_queue := incoming_event_queue st;
     incoming_dup_tracker := incoming_dup_tracker st;
     outgoing_dup_tracker := outgoing_dup_tracker st;
     module_inbox := module_inbox st; word_cloud := word_cloud st;
     verbose_log := l; _finished_init := _finished_init st |}.

Definition with_finished_init (b : bool) (st : ScanManager) :=
  {| events := events st; incoming_event_queue := incoming_event_queue st;
     incoming_dup_tracker := incoming_dup_tracker st;
     outgoing_dup_tracker := outgoing_dup_tracker st;
     module_inbox := module_inbox st; word_cloud := word_cloud st;
     verbose_log := verbose_log st; _finished_init := b |}.

(** ** A state-and-exception monad

    A computation takes the dispatcher state and gives the new state with
    either a result or a raised exception; writes made before an exception
    stay. *)
Definition M (A : Type) : Type := ScanManager -> ScanManager * outcome A.

Definition ret {A} (a : A) : M A := fun st => (st, Returns a).

Definition bind {A B} (m : M A) (k : A -> M B) : M B :=
  fun st =>
    match m st with
    | (st', Returns a) => k a st'
    | (st', Raises x) => (st', Raises x)
    end.

Definition raise {A} (x : exn) : M A := fun st => (st, Raises x).

Definition gets {A} (f : ScanManager -> A) : M A := fun st => (st, Returns (f st)).

Definition modify (f : ScanManager -> ScanManager) : M unit :=
  fun st => (f st, Returns tt).

Notation "'let*' x := m 'in' k" := (bind m (fun x => k))
  (at level 10, x name, m at level 100, k at level 200).
Notation "m >> k" := (bind m (fun _ => k))
  (at level 100, k at level 200, right associativity).

Definition when (b : bool) (m : M unit) : M unit := if b then m else ret tt.

Fixpoint for_each {A} (l : list A) (body : A -> M unit) : M unit :=
  match l with
  | [] => ret tt
  | x :: rest => body x >> for_each rest body
  end.

(** [async with self.scan._acatch(...)]: scoped failure suppression; whatever
    the body raises is absorbed and execution continues after the block. *)
Definition _acatch (m : M unit) : M unit :=
  fun st =>
    match m st with
    | (st', Returns _) => (st', Returns tt)
    | (st', Raises _) => (st', Returns tt)
    end.

(** [except ValidationError]: only that exception is handled. *)
Definition except_ValidationError (m : M unit) : M unit :=
  fun st =>
    match m st with
    | (st', Raises ValidationError) => (st', Returns tt)
    | r => r
    end.

(** Final state of a computation. *)
Definition exec {A} (m : M A) (st : ScanManager) : ScanManager := fst (m st).

(** ** Attribute access through the store *)

(** Reading an event object.  A reference outside the store plays the role
    of a missing object: the access raises [AttributeError]. *)
Definition get_event (e : nat) : M Event :=
  fun st =>
    match events st !! e with
    | Some ev => (st, Returns ev)
    | None => (st, Raises AttributeError)
    end.

(** [obj.attr] where [obj] may be [None]. *)
Definition getattr {A} (obj : option nat) (attr : Event -> A) : M A :=
  match obj with
  | Some e => let* ev := get_event e in ret (attr ev)
  | None => raise AttributeError
  end.

(** [obj.attr = v] where [obj] may be [None]. *)
Definition setattr (obj : option nat) (f : Event -> Event) : M unit :=
  match obj with
  | Some e =>
      let* ev := get_event e in
      modify (fun st => with_events (<[e := f ev]> (events st)) st)
  | None => raise AttributeError
  end.

(** Stable sort by an integer key (Python's [sorted(..., key=...)]). *)
Fixpoint insert_by {A} (key : A -> Z) (x : A) (l : list A) : list A :=
  match l with
  | [] => [x]
  | y :: rest =>
      if key y <=? key x then y :: insert_by key x rest else x :: y :: rest
  end.

Definition sorted_by {A} (key : A -> Z) (l : list A) : list A :=
  fold_left (fun acc x => insert_by key x acc) l [].

(** ** The dispatcher *)

Section Dispatcher.

(** The scan the manager belongs to ([self.scan]). *)
Variable scan : Scan.

(** Python's [hash] of the pair [(event, str(module))], as a function of
  [hash(event)] and the string. *)
Variable tuple_hash : Z -> string -> Z.

(** [str(getattr(event, "module", ""))]. *)
Definition module_str (m : option nat) : string :=
match m with
| Some r => name (module_object scan r)
| None => "None"
end.

(** The fingerprint computed at the head of [is_incoming_duplicate]:
  the producer's [_outgoing_dedup_hash(event)], and on [AttributeError]
  (no producer, or a producer without that method) the hash of the pair
  of the event and the producer's name. *)
Definition incoming_hash (ev : Event) : Z :=
match module ev with
| Some r =>
    match _outgoing_dedup_hash (module_object scan r) with
    | Some custom => custom ev
    | None => tuple_hash (hash ev) (module_str (module ev))
    end
| None => tuple_hash (hash ev) (module_str (module ev))
end.

(** [getattr(event.module, "suppress_dupes", True)]. *)
Definition suppress_dupes_of (ev : Event) : bool :=
match module ev with
| Some r => default true (suppress_dupes (module_object scan r))
| None => true
end.

Definition is_incoming_duplicate (e : nat) (add : bool) : M bool :=
let* ev := get_event e in
let event_hash := incoming_hash ev in
let* tracker := gets incoming_dup_tracker in
let is_dup := bool_decide (event_hash ∈ tracker) in
when add (modify (with_incoming ({[event_hash]} ∪ tracker))) >>
let suppress_dupes := suppress_dupes_of ev in
if suppress_dupes && is_dup then ret true else ret false.

Definition is_outgoing_duplicate (e : nat) (add : bool) : M bool :=
let* ev := get_event e in
let event_hash := hash ev in
let* tracker := gets outgoing_dup_tracker in
let is_dup := bool_decide (event_hash ∈ tracker) in
when add (modify (with_outgoing ({[event_hash]} ∪ tracker))) >>
ret is_dup.

(** Modelled from the spec: [Event.__eq__] and [Event.get_source] are
  declared outside [manager.py].  Two events are equal iff their
  canonical hashes match; the precheck compares the event with
  [event.source].  An event is never equal to [None]. *)
Definition equals_own_source (ev : Event) : M bool :=
match source ev with
| Some s => let* sv := get_event s in ret (hash ev =? hash sv)
| None => ret false
end.

Definition _event_precheck (e : nat) : M bool :=
let* ev := get_event e in
if _dummy ev then ret false
else
  let* self_parented := equals_own_source ev in
  if self_parented then ret false
  else if _graph_important ev then ret true
  else
    let* dup := is_incoming_duplicate e true in
    if dup then ret false else ret true.

(** [incoming_event_queue.put_nowait(item)]: the put is recorded after the
    earlier ones; where a [ShuffleQueue] places the item is not modelled. *)
Definition put_nowait (item : nat * Kwargs) : M unit :=
modify (fun st => with_queue (incoming_event_queue st ++ [item]) st).

(** [queue_event(event, **kwargs)]; [None] is the falsy event. *)
Definition queue_event (event : option nat) (kwargs : Kwargs) : M unit :=
match event with
| None => ret tt
| Some e =>
    let* ev := get_event e in
    when (0 <? scope_distance ev)
      (let event_in_scope :=
         whitelisted scan ev && negb (blacklisted scan ev) in
       when (negb event_in_scope)
         (setattr event (set_module_priority
                       (module_priority ev + scope_distance ev)))) >>
    let* ev := get_event e in
    let* parent_distance := getattr (source ev) scope_distance in
    setattr event (set_scope_distance (parent_distance + 1)) >>
    put_nowait (e, kwargs)
end.

(** The sink [mod.queue_event(event)] of a module (outside
  [manager.py]): the call is recorded. *)
Definition module_queue_event (m : nat) (e : nat) : M unit :=
modify (fun st => with_inbox (module_inbox st ++ [(m, e)]) st).

Definition absorb_event (e : nat) : M unit :=
modify (fun st => with_word_cloud (word_cloud st ++ [e]) st).

(** [self.scan.modules.values()]. *)
Definition modules_values : list nat := map snd (modules scan).

(** The body of the loop over the modules in [distribute_event]. *)
Definition offer_event (e : nat) (is_outgoing_duplicate : bool) (r : nat)
: M unit :=
let m := module_object scan r in
if _hook m then ret tt
else
  let acceptable_dup := negb is_outgoing_duplicate || accept_dupes m in
  let* ev := get_event e in
  let graph_important := _is_graph_important m ev in
  when (acceptable_dup || graph_important) (module_queue_event r e).

Definition distribute_event (e : nat) : M unit :=
_acatch (
  let* ev := get_event e in
  let event_in_report_distance :=
    scope_distance ev <=? scope_report_distance scan in
  let event_will_be_output := always_emit ev || event_in_report_distance in
  when (negb event_will_be_output) (setattr (Some e) (set_internal true)) >>
  let* ev := get_event e in
  let source := source ev in
  let* source_internal := getattr source internal in
  let* ev := get_event e in
  when (source_internal && (negb (internal ev) || _graph_important ev))
    (let* source_distance := getattr source scope_distance in
     let source_in_report_distance :=
       source_distance <=? scope_report_distance scan in
     when source_in_report_distance
       (setattr source (set_internal false)) >>
     let* source_graph_important := getattr source _graph_important in
     when (negb source_graph_important)
       (setattr source (set_graph_important true) >>
        queue_event source no_kwargs)) >>
  let* is_outgoing_duplicate := is_outgoing_duplicate e false in
  let* ev := get_event e in
  when (negb is_outgoing_duplicate
        && (-1 <? scope_distance ev) && (scope_distance ev <? 1))
    (absorb_event e) >>
  for_each modules_values (offer_event e is_outgoing_duplicate)).

(** [self.scan.helpers.execute_sync_or_async(callback, event)]: a
  coroutine function is awaited, any other callable is called; either
  way the callback runs once on the event. *)
Definition execute_sync_or_async (f : Callback) (e : nat) : M PyValue :=
fun st =>
  let run := if is_coroutine f then call f e else call f e in
  let '(store, result) := run (events st) in
  (with_events store st, result).

(** A call whose result is assigned inside [_acatch]: when the call
  raises, the assignment does not happen and the variable keeps its
  previous value. *)
Definition assign_in_acatch {A} (previous : A) (m : M A) : M A :=
fun st =>
  match m st with
  | (st', Returns a) => (st', Returns a)
  | (st', Raises _) => (st', Returns previous)
  end.

Definition log_verbose (r : LogRecord) : M unit :=
modify (fun st => with_log (verbose_log st ++ [r]) st).

(** [event.host] as a condition: set and not empty. *)
Definition host_truthy (ev : Event) : bool :=
match host ev with
| Some h => negb (String.eqb h EmptyString)
| None => false
end.

Definition _emit_event (e : nat) (kwargs : Kwargs) : M unit :=
except_ValidationError (
  let on_success_callback := on_success_callback kwargs in
  let abort_if := abort_if kwargs in
  let* ev := get_event e in
  let event_blacklisted := blacklisted scan ev in
  if event_blacklisted || bool_decide ("blacklisted" ∈ tags ev) then ret tt
  else
    let event_whitelisted := whitelisted scan ev in
    when (host_truthy ev && event_whitelisted)
      (setattr (Some e) (set_scope_distance 0)) >>
    let* aborted :=
      match abort_if with
      | Callable f =>
          let* abort_result :=
            assign_in_acatch (VBool false) (execute_sync_or_async f e) in
          let* ev := get_event e in
          let '(abort_result, reason) :=
            match unpack2 abort_result with
            | Some (first, second) => (first, Some second)
            | None => (abort_result, None)
            end in
          if truthy abort_result then
            log_verbose (AbortMessage (module_str (module ev)) e reason) >>
            ret true
          else ret false
      | _ => ret false
      end in
    if aborted then ret tt
    else
      match on_success_callback with
      | Callable f =>
          _acatch (let* _ := execute_sync_or_async f e in ret tt)
      | _ => ret tt
      end >>
      distribute_event e).

Definition emit_event (e : nat) (kwargs : Kwargs) : M unit :=
let callbacks_requested :=
  is_not_None (abort_if kwargs) || is_not_None (on_success_callback kwargs) in
let quick_kwarg := quick kwargs in
let* ev := get_event e in
let quick_event := quick_emit ev in
let quick := (quick_kwarg || quick_event) && negb callbacks_requested in
let* acceptable := _event_precheck e in
if negb acceptable then ret tt
else if quick then _acatch (distribute_event e)
else _acatch (_emit_event e kwargs).

(** [modules_by_priority] and [hook_modules]: the modules sorted by
  priority, and those of them that are hooks. *)
Definition modules_by_priority : list nat :=
sorted_by (fun r => priority (module_object scan r)) modules_values.

Definition hook_modules : list nat :=
filter (fun r => _hook (module_object scan r) = true) modules_by_priority.

(** The body of the loop of [init_events] for one seed. *)
Definition seed_event (e : nat) : M unit :=
let event := Some e in
setattr event (set_dummy false) >>
setattr event (set_scope_distance 0) >>
setattr event (set_web_spider_distance 0) >>
setattr event (set_scan_ref true) >>
let* ev := get_event e in
when (bool_decide (source ev = None))
  (setattr event (set_source (Some (root_event scan)))) >>
let* ev := get_event e in
when (bool_decide (module ev = None))
  (setattr event
     (set_module (Some (_make_dummy_module scan "TARGET" "TARGET")))) >>
match hook_modules with
| first_hook_module :: _ => module_queue_event first_hook_module e
| [] => queue_event event no_kwargs
end.

(** [len(e.data)] for every target event, as [sorted] evaluates its key. *)
Fixpoint data_lengths (l : list nat) : M (list (nat * Z)) :=
match l with
| [] => ret []
| e :: rest =>
    let* ev := get_event e in
    let* keyed := data_lengths rest in
    ret ((e, Z.of_nat (String.length (data ev))) :: keyed)
end.

Definition init_events : M unit :=
_acatch (
  let* keyed := data_lengths (target_events scan) in
  let sorted_events := map fst (sorted_by snd keyed) in
  for_each (root_event scan :: sorted_events) seed_event >>
  modify (with_finished_init true)).

End Dispatcher.

(** ** Notions used in the statements *)

(** Whether the loop of [distribute_event] hands the event to module [r],
    given the result of the scan-global duplicate check. *)
Definition deliverable (scan : Scan) (is_dup : bool) (ev : Event) (r : nat) : bool :=
  negb (_hook (module_object scan r))
  && (negb is_dup || accept_dupes (module_object scan r)
      || _is_graph_important (module_object scan r) ev).


(** A computation preserves a relation when its final state is always
    related to its initial state, whether it returns or raises. *)
Definition preserves (R : relation ScanManager) {A} (m : M A) : Prop :=
  forall st, R st (fst (m st)).

(** The incoming tracker only grows. *)
Definition incoming_grows (st st' : ScanManager) : Prop :=
  incoming_dup_tracker st ⊆ incoming_dup_tracker st'.

(** The outgoing tracker is left as it is. *)
Definition outgoing_unchanged (st st' : ScanManager) : Prop :=
  outgoing_dup_tracker st' = outgoing_dup_tracker st.

(** The event object [e] is left as it is. *)
Definition event_unchanged (e : nat) (st st' : ScanManager) : Prop :=
  events st' !! e = events st !! e.

(** The operations of the dispatcher, as a caller can invoke them. *)
Inductive Operation :=
| Op_is_incoming_duplicate (e : nat) (add : bool)
| Op_is_outgoing_duplicate (e : nat) (add : bool)
| Op_event_precheck (e : nat)
| Op_queue_event (event : option nat) (kwargs : Kwargs)
| Op_distribute_event (e : nat)
| Op__emit_event (e : nat) (kwargs : Kwargs)
| Op_emit_event (e : nat) (kwargs : Kwargs)
| Op_init_events.

Definition run_operation (scan : Scan) (tuple_hash : Z -> string -> Z)
    (op : Operation) (st : ScanManager) : ScanManager :=
  match op with
  | Op_is_incoming_duplicate e add =>
      exec (is_incoming_duplicate scan tuple_hash e add) st
  | Op_is_outgoing_duplicate e add => exec (is_outgoing_duplicate e add) st
  | Op_event_precheck e => exec (_event_precheck scan tuple_hash e) st
  | Op_queue_event event kwargs => exec (queue_event scan event kwargs) st
  | Op_distribute_event e => exec (distribute_event scan e) st
  | Op__emit_event e kwargs => exec (_emit_event scan e kwargs) st
  | Op_emit_event e kwargs => exec (emit_event scan tuple_hash e kwargs) st
  | Op_init_events => exec (init_events scan) st
  end.

Definition run_operations (scan : Scan) (tuple_hash : Z -> string -> Z)
    (ops : list Operation) (st : ScanManager) : ScanManager :=
  fold_left (fun s op => run_operation scan tuple_hash op s) ops st.

(** ** A small scan on which the operations are evaluated *)

Definition example_event (d : string) (h : Z) (src : option nat)
    (distance priority : Z) (is_internal graph_important : bool) : Event :=
  {| data := d; hash := h; source := src; module := Some 7%nat;
     scope_distance := distance; web_spider_distance := 0;
     internal := is_internal; tags := ∅; host := None; _dummy := false;
     _graph_important := graph_important; always_emit := false;
     quick_emit := false; module_priority := priority; scan_ref := true |}.

(** A consumer that refuses duplicates and forces no delivery. *)
Definition example_module : Module :=
  {| name := "sink"; priority := 3; _hook := false; suppress_dupes := None;
     accept_dupes := false; _outgoing_dedup_hash := None;
     _is_graph_important := fun _ => false |}.

(** One consumer module, no hook module, nothing whitelisted or
    blacklisted; the root event is object 0 and the only target object 1. *)
Definition example_scan (report_distance : Z) : Scan :=
  {| scope_report_distance := report_distance;
     module_object := fun _ => example_module;
     modules := [("sink", 7%nat)];
     root_event := 0%nat; target_events := [1%nat];
     blacklisted := fun _ => false; whitelisted := fun _ => false;
     _make_dummy_module := fun _ _ => 9%nat |}.

Definition example_tuple_hash (h : Z) (s : string) : Z :=
  1000 * h + Z.of_nat (String.length s).

(** The events of the examples: the root event, which is its own source;
    [example_sub], internal and three hops out; [example_leaf], a
    graph-important child of [example_sub]. *)
Definition example_root : Event :=
  example_event "scan" 100 (Some 0%nat) 0 3 false false.

Definition example_sub : Event :=
  example_event "sub.example.com" 101 (Some 0%nat) 3 3 true false.

Definition example_leaf : Event :=
  example_event "leaf.sub.example.com" 102 (Some 1%nat) 4 3 false true.

(** Two distinct events with the same canonical hash, both children of the
    root. *)
Definition twin_store : gmap nat Event :=
  <[0%nat := example_root]>
    (<[1%nat := example_event "a.example.com" 101 (Some 0%nat) 0 3 false false]>
       (<[2%nat := example_event "a.example.com" 101 (Some 0%nat) 0 3 false false]> ∅)).

(** The chain root <- sub <- leaf. *)
Definition chain_store : gmap nat Event :=
  <[0%nat := example_root]>
    (<[1%nat := example_sub]> (<[2%nat := example_leaf]> ∅)).

(** An [abort_if] that vetoes with a reason, one that raises, and their
    keyword arguments. *)
Definition veto_with_reason : Callback :=
  {| is_coroutine := false;
     call := fun _ store =>
       (store, Returns (VTuple [VBool true; VStr "user policy"])) |}.

Definition failing_callback : Callback :=
  {| is_coroutine := true;
     call := fun _ store => (store, Raises OtherError) |}.

Definition abort_kwargs (f : Callback) : Kwargs :=
  {| abort_if := Callable f; on_success_callback := Missing; quick := false |}.

(** ** Notions used in the further properties *)

(** Nothing is taken off the shared ingress queue: every item queued
    before is queued after, as many times, wherever the queue keeps it. *)
Definition keeps_queued (st st' : ScanManager) : Prop :=
  incoming_event_queue st ⊆+ incoming_event_queue st'.

(** A scan whose blacklist matches every event, with one consumer. *)
Definition blacklisting_scan : Scan :=
  {| scope_report_distance := 0;
     module_object := fun _ => example_module;
     modules := [("sink", 7%nat)];
     root_event := 0%nat; target_events := [1%nat];
     blacklisted := fun _ => true; whitelisted := fun _ => false;
     _make_dummy_module := fun _ _ => 9%nat |}.

Definition quick_kwargs : Kwargs :=
  {| abort_if := Missing; on_success_callback := Missing; quick := true |}.

(** [callable(k)] for a keyword argument. *)
Definition is_callable (k : KwArg) : bool :=
  match k with Callable _ => true | _ => false end.

(** A success callback that raises, and one that tags nothing but returns. *)
Definition success_kwargs (f : Callback) : Kwargs :=
  {| abort_if := Missing; on_success_callback := Callable f; quick := false |}.

(** A scan whose whitelist matches every event. *)
Definition whitelisting_scan : Scan :=
  {| scope_report_distance := 0;
     module_object := fun _ => example_module;
     modules := [("sink", 7%nat)];
     root_event := 0%nat; target_events := [1%nat];
     blacklisted := fun _ => false; whitelisted := fun _ => true;
     _make_dummy_module := fun _ _ => 9%nat |}.

(** An event with a host, four hops out, child of the root. *)
Definition example_far_host : Event :=
  {| data := "far.example.com"; hash := 103; source := Some 0%nat;
     module := Some 7%nat; scope_distance := 4; web_spider_distance := 0;
     internal := false; tags := ∅; host := Some "far.example.com";
     _dummy := false; _graph_important := false; always_emit := false;
     quick_emit := false; module_priority := 3; scan_ref := true |}.

Definition host_store : gmap nat Event :=
  <[0%nat := example_root]> (<[1%nat := example_far_host]> ∅).

(** An event whose [source] was never set. *)
Definition orphan_store : gmap nat Event :=
  <[1%nat := example_event "orphan.example.com" 104 None 0 3 false false]> ∅.

(** The chain root <- sub <- leaf with the [source] of [sub] unset. *)
Definition broken_chain_store : gmap nat Event :=
  <[0%nat := example_root]>
    (<[1%nat := set_source None example_sub]> (<[2%nat := example_leaf]> ∅)).

(** ** The queues the worker draws from *)

(** [non_hook_modules]: the modules by priority that are not hooks. *)
Definition non_hook_modules (scan : Scan) : list nat :=
  filter (fun r => _hook (module_object scan r) = false)
    (modules_by_priority scan).

(** A queue object: the shared ingress queue of the manager or the
    [outgoing_event_queue] of a module. *)
Inductive QueueRef :=
| IncomingEventQueue
| OutgoingEventQueue (r : nat).

#[export] Instance QueueRef_eq_dec : EqDecision QueueRef.
Proof. solve_decision. Defined.

(** [incoming_queues]: the shared ingress queue, then the outgoing queues of
    the modules that are not hooks, by priority. *)
Definition incoming_queues (scan : Scan) : list QueueRef :=
  IncomingEventQueue :: map OutgoingEventQueue (non_hook_modules scan).

(** [module_priority_weights]: one weight per queue of [incoming_queues]. *)
Definition module_priority_weights (scan : Scan) : list Z :=
  5 :: map (fun r => 6 - priority (module_object scan r))
         (non_hook_modules scan).

(** A scan with two hooks and two consumers, listed out of priority order. *)
Definition example_module_with (n : string) (p : Z) (hook : bool) : Module :=
  {| name := n; priority := p; _hook := hook; suppress_dupes := None;
     accept_dupes := false; _outgoing_dedup_hash := None;
     _is_graph_important := fun _ => false |}.

Definition hooked_scan : Scan :=
  {| scope_report_distance := 0;
     module_object := fun r =>
       match r with
       | 3%nat => example_module_with "late_hook" 4 true
       | 4%nat => example_module_with "early_hook" 2 true
       | 5%nat => example_module_with "slow" 5 false
       | _ => example_module_with "fast" 1 false
       end;
     modules := [("late_hook", 3%nat); ("slow", 5%nat);
                 ("early_hook", 4%nat); ("fast", 6%nat)];
     root_event := 0%nat; target_events := [1%nat];
     blacklisted := fun _ => false; whitelisted := fun _ => false;
     _make_dummy_module := fun _ _ => 9%nat |}.

(** ** Seeding *)

(** The attributes [init_events] sets on a seed before handing it on: the
    event is no dummy, in scope, at web-spider distance 0, tied to the scan,
    and a missing source or module is filled in with the root event and the
    TARGET dummy module. *)
Definition seeded (scan : Scan) (ev : Event) : Event :=
  let ev := set_scan_ref true
              (set_web_spider_distance 0
                 (set_scope_distance 0 (set_dummy false ev))) in
  let ev := if bool_decide (source ev = None)
            then set_source (Some (root_event scan)) ev else ev in
  if bool_decide (module ev = None)
  then set_module (Some (_make_dummy_module scan "TARGET" "TARGET")) ev
  else ev.

(** [len(e.data)] of an event of the store. *)
Definition data_length (store : gmap nat Event) (e : nat) : Z :=
  match store !! e with
  | Some ev => Z.of_nat (String.length (data ev))
  | None => 0
  end.

(** The root event and two targets, the longer one listed first. *)
Definition two_target_store : gmap nat Event :=
  <[0%nat := example_root]>
    (<[1%nat := example_event "long.example.com" 101 None (-1) 3 false false]>
       (<[2%nat := example_event "a.io" 102 None (-1) 3 false false]> ∅)).

Definition two_target_scan (hooks : bool) : Scan :=
  {| scope_report_distance := 0;
     module_object := fun _ => example_module_with "only" 3 hooks;
     modules := [("only", 7%nat)];
     root_event := 0%nat; target_events := [1%nat; 2%nat];
     blacklisted := fun _ => false; whitelisted := fun _ => false;
     _make_dummy_module := fun _ _ => 9%nat |}.

(** ** The worker *)

(** What one worker of [_worker_loop] works on: the manager, and the
    [outgoing_event_queue] of every module that has one, by module
    reference.  A module without an entry is one whose queue attribute is
    [None]. *)
Record Worker := {
  manager : ScanManager;
  outgoing_event_queue : gmap nat (list (nat * Kwargs))
}.

Definition with_manager (m : ScanManager) (w : Worker) : Worker :=
  {| manager := m; outgoing_event_queue := outgoing_event_queue w |}.

(** The outcome of asking a queue for an item. *)
Inductive Fetched (A : Type) :=
| Fetch (a : A)
| QueueEmpty
| FetchError (x : exn).
Arguments Fetch {A} a.
Arguments QueueEmpty {A}.
Arguments FetchError {A} x.

(** How one pass of the loop body ends: an event was emitted, the queues
    were empty and the worker slept, or an exception left the loop. *)
Inductive Pass :=
| Emitted (e : nat)
| Slept
| Crashed (x : exn).

Section WorkerLoop.

Variable scan : Scan.
Variable tuple_hash : Z -> string -> Z.

(** [ShuffleQueue.get_nowait] (declared outside [manager.py]): [None] on an
    empty queue ([QueueEmpty]), else an item and the queue without it. *)
Variable get_nowait :
  list (nat * Kwargs) -> option ((nat * Kwargs) * list (nat * Kwargs)).

(** [scan.helpers.weighted_shuffle] (declared outside [manager.py]). *)
Variable weighted_shuffle : list QueueRef -> list Z -> list QueueRef.

(** The items of a queue object; [None] when the object is [None]. *)
Definition queue_items (q : QueueRef) (w : Worker)
  : option (list (nat * Kwargs)) :=
  match q with
  | IncomingEventQueue => Some (incoming_event_queue (manager w))
  | OutgoingEventQueue r => outgoing_event_queue w !! r
  end.

Definition set_queue_items (q : QueueRef) (items : list (nat * Kwargs))
    (w : Worker) : Worker :=
  match q with
  | IncomingEventQueue =>
      {| manager := with_queue items (manager w);
         outgoing_event_queue := outgoing_event_queue w |}
  | OutgoingEventQueue r =>
      {| manager := manager w;
         outgoing_event_queue := <[r := items]> (outgoing_event_queue w) |}
  end.

(** [q.get_nowait()]: on [None] the attribute access raises
    [AttributeError]. *)
Definition queue_get_nowait (q : QueueRef) (w : Worker)
  : Fetched ((nat * Kwargs) * Worker) :=
  match queue_items q w with
  | None => FetchError AttributeError
  | Some items =>
      match get_nowait items with
      | None => QueueEmpty
      | Some (item, rest) => Fetch (item, set_queue_items q rest w)
      end
  end.

(** The loop of [get_event_from_modules] over the shuffled queues: the first
    queue that gives an item ends the loop, a queue that raises
    [QueueEmpty] or [AttributeError] is skipped, and when none gives an item
    [QueueEmpty] is raised. *)
Fixpoint first_available (queues : list QueueRef) (w : Worker)
  : Fetched ((nat * Kwargs) * Worker) :=
  match queues with
  | [] => QueueEmpty
  | q :: rest =>
      match queue_get_nowait q w with
      | Fetch r => Fetch r
      | QueueEmpty | FetchError _ => first_available rest w
      end
  end.

Definition get_event_from_modules (w : Worker)
  : Fetched ((nat * Kwargs) * Worker) :=
  first_available
    (weighted_shuffle (incoming_queues scan) (module_priority_weights scan)) w.

(** [incoming_qsize]: the sum of [q.qsize()] over [incoming_queues]; [None]
    when a queue object is [None] ([AttributeError]). *)
Fixpoint sum_qsize (queues : list QueueRef) (w : Worker) (total : Z)
  : option Z :=
  match queues with
  | [] => Some total
  | q :: rest =>
      match queue_items q w with
      | Some items => sum_qsize rest w (total + Z.of_nat (length items))
      | None => None
      end
  end.

Definition incoming_qsize (w : Worker) : option Z :=
  sum_qsize (incoming_queues scan) w 0.

(** [running], with [_task_counter.value] as [active_tasks]. *)
Definition running (active_tasks : Z) (w : Worker) : option bool :=
  match incoming_qsize w with
  | Some incoming_events =>
      Some ((0 <? active_tasks) || (0 <? incoming_events))
  | None => None
  end.

(** One pass of the body of the [while] loop of [_worker_loop]. *)
Definition worker_pass (w : Worker) : Worker * Pass :=
  let fetched :=
    match last (hook_modules scan) with
    | Some last_hook_module =>
        queue_get_nowait (OutgoingEventQueue last_hook_module) w
    | None => get_event_from_modules w
    end in
  match fetched with
  | QueueEmpty => (w, Slept)
  | FetchError x => (w, Crashed x)
  | Fetch ((event, kwargs), w') =>
      match emit_event scan tuple_hash event kwargs (manager w') with
      | (m, Returns _) => (with_manager m w', Emitted event)
      | (m, Raises x) => (with_manager m w', Crashed x)
      end
  end.

(** [_worker_loop] for a worker that finds [scan.stopped] false
    [passes] times: the loop ends when the scan is stopped or when an
    exception reaches the outer handler. *)
Fixpoint _worker_loop (passes : nat) (w : Worker) : Worker :=
  match passes with
  | O => w
  | S n =>
      match worker_pass w with
      | (w', Crashed _) => w'
      | (w', _) => _worker_loop n w'
      end
  end.

End WorkerLoop.

(** A queue that hands out its oldest item. *)
Definition pop_head (items : list (nat * Kwargs))
  : option ((nat * Kwargs) * list (nat * Kwargs)) :=
  match items with
  | [] => None
  | item :: rest => Some (item, rest)
  end.

(** A shuffle that reverses the queues. *)
Definition reversing_shuffle (queues : list QueueRef) (weights : list Z)
  : list QueueRef := rev queues.

(** Workers of the examples: one with an item on the shared ingress queue
    and one on the outgoing queue of module 7; one whose queues are empty;
    and, for [hooked_scan], one with items behind the last hook and
    elsewhere, and one with nothing behind the last hook. *)
Definition busy_worker : Worker :=
  {| manager := with_queue [(2%nat, no_kwargs)] (init chain_store);
     outgoing_event_queue := <[7%nat := [(1%nat, no_kwargs)]]> ∅ |}.

Definition idle_worker : Worker :=
  {| manager := init chain_store;
     outgoing_event_queue := <[7%nat := []]> ∅ |}.

Definition hooked_worker : Worker :=
  {| manager := with_queue [(1%nat, no_kwargs)] (init chain_store);
     outgoing_event_queue :=
       <[3%nat := [(2%nat, no_kwargs)]]> (<[6%nat := [(1%nat, no_kwargs)]]> ∅) |}.

Definition idle_hooked_worker : Worker :=
  {| manager := with_queue [(1%nat, no_kwargs)] (init chain_store);
     outgoing_event_queue := <[3%nat := []]> ∅ |}.

(** ** Status of the queues *)

Section QueueStatus.

Variable scan : Scan.

(** [getattr(event, "type", None)]; the type of an event is not among the
    attributes the dispatcher writes. *)
Variable event_type : Event -> option string.

Definition type_of_item (store : gmap nat Event) (item : nat * Kwargs)
  : option string :=
  match store !! fst item with
  | Some ev => event_type ev
  | None => None
  end.

(** The body of the inner loop of [queued_event_types]. *)
Definition count_event (store : gmap nat Event)
    (event_types : gmap string Z) (item : nat * Kwargs) : gmap string Z :=
  match type_of_item store item with
  | Some t =>
      match event_types !! t with
      | Some count => <[t := count + 1]> event_types
      | None => <[t := 1]> event_types
      end
  | None => event_types
  end.

Fixpoint count_queues (queues : list QueueRef) (w : Worker)
    (event_types : gmap string Z) : option (gmap string Z) :=
  match queues with
  | [] => Some event_types
  | q :: rest =>
      match queue_items q w with
      | Some items =>
          count_queues rest w
            (fold_left (count_event (events (manager w))) items event_types)
      | None => None
      end
  end.

(** [queued_event_types]; [None] when a queue object is [None]
    ([AttributeError]). *)
Definition queued_event_types (w : Worker) : option (gmap string Z) :=
  count_queues (incoming_queues scan) w ∅.

(** The items of the given queues, one queue after the other. *)
Definition queued_items (queues : list QueueRef) (w : Worker)
  : list (nat * Kwargs) :=
  concat (map (fun q => default [] (queue_items q w)) queues).

End QueueStatus.

(** The event type of the examples: SCAN for the root event, DNS_NAME for
    any other, none for a dummy. *)
Definition example_event_type (ev : Event) : option string :=
  if _dummy ev then None
  else Some (if String.eqb (data ev) "scan" then "SCAN" else "DNS_NAME").

(** ** Symbolic execution of computations *)

Lemma bind_ret {A B} (a : A) (k : A -> M B) st : bind (ret a) k st = k a st.
Proof. reflexivity. Qed.

Lemma bind_bind {A B C} (m : M A) (f : A -> M B) (k : B -> M C) st :
  bind (bind m f) k st = bind m (fun x => bind (f x) k) st.
Proof. unfold bind. destruct (m st) as [st' [a|x]]; reflexivity. Qed.

Lemma run_as_bind {A} (m : M A) st : m st = bind m ret st.
Proof. unfold bind, ret. destruct (m st) as [st' [a|x]]; reflexivity. Qed.

Lemma bind_modify {B} f (k : unit -> M B) st : bind (modify f) k st = k tt (f st).
Proof. reflexivity. Qed.

Lemma bind_gets {A B} (f : ScanManager -> A) (k : A -> M B) st :
  bind (gets f) k st = k (f st) st.
Proof. reflexivity. Qed.

Lemma bind_raise {A B} x (k : A -> M B) st : bind (raise x) k st = (st, Raises x).
Proof. reflexivity. Qed.

Lemma bind_get_event {B} e ev (k : Event -> M B) st :
  events st !! e = Some ev -> bind (get_event e) k st = k ev st.
Proof. intros H. unfold bind, get_event. by rewrite H. Qed.

Lemma bind_getattr {A B} s sv (attr : Event -> A) (k : A -> M B) st :
  events st !! s = Some sv -> bind (getattr (Some s) attr) k st = k (attr sv) st.
Proof. intros H. unfold getattr. rewrite bind_bind. by rewrite (bind_get_event _ _ _ _ H). Qed.

Lemma bind_setattr {B} e ev f (k : unit -> M B) st :
  events st !! e = Some ev ->
  bind (setattr (Some e) f) k st =
    k tt (with_events (<[e := f ev]> (events st)) st).
Proof. intros H. unfold setattr. rewrite bind_bind. by rewrite (bind_get_event _ _ _ _ H). Qed.

Lemma bind_when_true {B} m (k : unit -> M B) st : bind (when true m) k st = bind m k st.
Proof. reflexivity. Qed.

Lemma bind_when_false {B} m (k : unit -> M B) st : bind (when false m) k st = k tt st.
Proof. reflexivity. Qed.

Lemma _acatch_returns m st st' a :
  m st = (st', Returns a) -> _acatch m st = (st', Returns tt).
Proof. intros H. unfold _acatch. by rewrite H. Qed.

Lemma _acatch_raises m st st' x :
  m st = (st', Raises x) -> _acatch m st = (st', Returns tt).
Proof. intros H. unfold _acatch. by rewrite H. Qed.

Arguments queue_event : simpl never.
Arguments offer_event : simpl never.

Ltac solve_lookup :=
  simpl;
  repeat first [rewrite lookup_insert_eq | rewrite lookup_insert_ne by congruence];
  first [eassumption | reflexivity].

Ltac mstep :=
  first
    [ rewrite bind_bind
    | rewrite bind_ret
    | rewrite bind_modify
    | rewrite bind_gets
    | rewrite bind_when_true
    | rewrite bind_when_false
    | erewrite bind_get_event by solve_lookup
    | erewrite bind_getattr by solve_lookup
    | erewrite bind_setattr by solve_lookup
    | progress unfold absorb_event
    | progress unfold module_queue_event
    | progress unfold put_nowait
    | progress unfold log_verbose
    | match goal with
      | H : source ?ev = Some _ |- context [source ?ev] => rewrite H
      | |- bind (when ?b _) _ _ = _ => destruct b eqn:?
      end ];
  simpl.

Lemma queue_event_eq scan e kwargs st ev s sv :
  events st !! e = Some ev ->
  source ev = Some s ->
  events st !! s = Some sv ->
  queue_event scan (Some e) kwargs st =
    (with_queue (incoming_event_queue st ++ [(e, kwargs)])
       (with_events
          (<[e := set_scope_distance (scope_distance sv + 1)
                    (if (0 <? scope_distance ev)
                        && negb (whitelisted scan ev && negb (blacklisted scan ev))
                     then set_module_priority (module_priority ev + scope_distance ev) ev
                     else ev)]> (events st)) st),
     Returns tt).
Proof.
  intros He Hs Hsv.
  unfold queue_event. rewrite run_as_bind.
  destruct (decide (s = e)) as [->|Hne];
    [assert (sv = ev) by congruence; subst sv|].
  all: repeat mstep.
  all: unfold ret, with_queue, with_events; simpl.
  all: rewrite ?insert_insert_eq; reflexivity.
Qed.

Lemma bind_queue_event {B} scan e kwargs (k : unit -> M B) st ev s sv :
  events st !! e = Some ev ->
  source ev = Some s ->
  events st !! s = Some sv ->
  bind (queue_event scan (Some e) kwargs) k st =
    k tt (with_queue (incoming_event_queue st ++ [(e, kwargs)])
       (with_events
          (<[e := set_scope_distance (scope_distance sv + 1)
                    (if (0 <? scope_distance ev)
                        && negb (whitelisted scan ev && negb (blacklisted scan ev))
                     then set_module_priority (module_priority ev + scope_distance ev) ev
                     else ev)]> (events st)) st)).
Proof.
  intros He Hs Hsv. unfold bind at 1.
  by rewrite (queue_event_eq _ _ _ _ _ _ _ He Hs Hsv).
Qed.

Lemma fan_out_eq scan e ev is_dup l st :
  events st !! e = Some ev ->
  for_each l (offer_event scan e is_dup) st =
    (with_inbox (module_inbox st
                 ++ map (fun r => (r, e))
                      (List.filter (deliverable scan is_dup ev) l)) st,
     Returns tt).
Proof.
  intros He. revert st He. induction l as [|r l IH]; intros st He.
  - simpl. unfold ret, with_inbox. destruct st; simpl. by rewrite app_nil_r.
  - simpl. unfold offer_event at 1, deliverable at 1.
    destruct (_hook (module_object scan r)); simpl.
    + rewrite bind_ret. by apply IH.
    + repeat mstep.
      * rewrite IH by done. unfold with_inbox; simpl.
        by rewrite <- app_assoc.
      * by apply IH.
Qed.

Lemma distribute_event_eq scan e st ev s sv g gv :
  events st !! e = Some ev ->
  source ev = Some s ->
  s <> e ->
  events st !! s = Some sv ->
  source sv = Some g ->
  events st !! g = Some gv ->
  let rd := scope_report_distance scan in
  let ev1 := if negb (always_emit ev || (scope_distance ev <=? rd))
             then set_internal true ev else ev in
  let promote := internal sv && (negb (internal ev1) || _graph_important ev) in
  let sv1 := if promote && (scope_distance sv <=? rd)
             then set_internal false sv else sv in
  let requeue := promote && negb (_graph_important sv) in
  let marked := set_graph_important true sv1 in
  let sv2 :=
    if requeue then
      set_scope_distance (scope_distance gv + 1)
        (if (0 <? scope_distance sv)
            && negb (whitelisted scan marked && negb (blacklisted scan marked))
         then set_module_priority (module_priority sv + scope_distance sv) marked
         else marked)
    else sv1 in
  let is_dup := bool_decide (hash ev ∈ outgoing_dup_tracker st) in
  distribute_event scan e st =
    (with_inbox
       (module_inbox st
        ++ map (fun r => (r, e))
             (List.filter (deliverable scan is_dup ev1) (modules_values scan)))
       (with_word_cloud
          (if negb is_dup && (-1 <? scope_distance ev) && (scope_distance ev <? 1)
           then word_cloud st ++ [e] else word_cloud st)
          (with_queue
             (if requeue then incoming_event_queue st ++ [(s, no_kwargs)]
              else incoming_event_queue st)
             (with_events (<[s := sv2]> (<[e := ev1]> (events st))) st))),
     Returns tt).
Proof.
  intros He Hs Hne Hsv Hg Hgv. cbv zeta.
  unfold distribute_event, is_outgoing_duplicate.
  apply _acatch_returns with (a := tt).
  rewrite run_as_bind.
  repeat mstep.
  all: try match goal with
           | |- context [queue_event] =>
               destruct (decide (g = s)) as [->|Hgs];
               [assert (gv = sv) by congruence; subst gv
               |destruct (decide (g = e)) as [->|Hge];
                 [assert (gv = ev) by congruence; subst gv|]]
           end.
  all: try (erewrite bind_queue_event;
            [|solve_lookup|simpl; eassumption|solve_lookup]); simpl.
  all: repeat mstep.
  all: unfold bind at 1; erewrite fan_out_eq by solve_lookup; simpl.
  all: unfold ret, with_inbox, with_word_cloud, with_queue, with_events; simpl.
  all: repeat rewrite insert_insert_eq.
  all: rewrite ?(insert_id (events st) e ev He).
  all: try rewrite (insert_id _ s sv) by solve_lookup.
  all: reflexivity.
Qed.

(** The same for an event that is its own source. *)
Lemma distribute_event_self_eq scan e st ev :
  events st !! e = Some ev ->
  source ev = Some e ->
  let rd := scope_report_distance scan in
  let ev1 := if negb (always_emit ev || (scope_distance ev <=? rd))
             then set_internal true ev else ev in
  let promote := internal ev1 && (negb (internal ev1) || _graph_important ev) in
  let ev2 := if promote && (scope_distance ev <=? rd)
             then set_internal false ev1 else ev1 in
  let is_dup := bool_decide (hash ev ∈ outgoing_dup_tracker st) in
  distribute_event scan e st =
    (with_inbox
       (module_inbox st
        ++ map (fun r => (r, e))
             (List.filter (deliverable scan is_dup ev2) (modules_values scan)))
       (with_word_cloud
          (if negb is_dup && (-1 <? scope_distance ev) && (scope_distance ev <? 1)
           then word_cloud st ++ [e] else word_cloud st)
          (with_events (<[e := ev2]> (events st)) st)),
     Returns tt).
Proof.
  intros He Hs. cbv zeta.
  unfold distribute_event, is_outgoing_duplicate.
  apply _acatch_returns with (a := tt).
  rewrite run_as_bind.
  repeat mstep.
  all: try match goal with
           | |- context [queue_event] => exfalso
           end.
  all: try (destruct (internal ev), (_graph_important ev); simpl in *; discriminate).
  all: repeat mstep.
  all: unfold bind at 1; erewrite fan_out_eq by solve_lookup; simpl.
  all: unfold ret, with_inbox, with_word_cloud, with_queue, with_events; simpl.
  all: repeat rewrite insert_insert_eq.
  all: rewrite ?(insert_id (events st) e ev He).
  all: reflexivity.
Qed.

(** ** Preservation of a relation by the computations *)

Section Preservation.

Variable R : relation ScanManager.
Context `{!PreOrder R}.

Lemma preserves_ret {A} (a : A) : preserves R (ret a).
Proof. intros st. simpl. reflexivity. Qed.

Lemma preserves_raise {A} x : preserves R (@raise A x).
Proof. intros st. simpl. reflexivity. Qed.

Lemma preserves_gets {A} (f : ScanManager -> A) : preserves R (gets f).
Proof. intros st. simpl. reflexivity. Qed.

Lemma preserves_get_event e : preserves R (get_event e).
Proof. intros st. unfold get_event. destruct (events st !! e); reflexivity. Qed.

Lemma preserves_modify f : (forall st, R st (f st)) -> preserves R (modify f).
Proof. intros H st. apply H. Qed.

Lemma preserves_bind {A B} (m : M A) (k : A -> M B) :
  preserves R m -> (forall a, preserves R (k a)) -> preserves R (bind m k).
Proof.
  intros Hm Hk st. unfold bind. specialize (Hm st).
  destruct (m st) as [st' [a|x]]; simpl in *; [|done].
  etransitivity; [exact Hm|apply Hk].
Qed.

Lemma preserves_when b m : preserves R m -> preserves R (when b m).
Proof. intros H. destruct b; [done|apply preserves_ret]. Qed.

Lemma preserves_for_each {A} (l : list A) body :
  (forall x, preserves R (body x)) -> preserves R (for_each l body).
Proof.
  intros H. induction l as [|x l IH]; simpl.
  - apply preserves_ret.
  - apply preserves_bind; auto.
Qed.

Lemma preserves_acatch m : preserves R m -> preserves R (_acatch m).
Proof.
  intros H st. unfold _acatch. specialize (H st).
  by destruct (m st) as [st' [a|x]].
Qed.

Lemma preserves_except_ValidationError m :
  preserves R m -> preserves R (except_ValidationError m).
Proof.
  intros H st. unfold except_ValidationError. specialize (H st).
  by destruct (m st) as [st' [a|[]]].
Qed.

Lemma preserves_assign_in_acatch {A} (previous : A) m :
  preserves R m -> preserves R (assign_in_acatch previous m).
Proof.
  intros H st. unfold assign_in_acatch. specialize (H st).
  by destruct (m st) as [st' [a|x]].
Qed.

Lemma preserves_execute_sync_or_async f e :
  (forall st h, R st (with_events h st)) ->
  preserves R (execute_sync_or_async f e).
Proof.
  intros H st. unfold execute_sync_or_async.
  destruct (is_coroutine f); destruct (call f e (events st)); apply H.
Qed.

Lemma preserves_data_lengths l : preserves R (data_lengths l).
Proof.
  induction l as [|e l IH]; simpl.
  - apply preserves_ret.
  - apply preserves_bind; [apply preserves_get_event|intros ev].
    apply preserves_bind; [exact IH|intros keyed]. apply preserves_ret.
Qed.

End Preservation.

Create HintDb dispatcher.

#[export] Hint Unfold when getattr setattr put_nowait module_queue_event
  absorb_event log_verbose offer_event is_outgoing_duplicate
  equals_own_source : dispatcher.

(** Walks through a computation; [leaf] closes the goals left by the state
    updates, [known] the computations already dealt with. *)
Ltac preserving leaf known :=
  repeat first
    [ match goal with |- PreOrder _ => typeclasses eauto end
    | known
    | apply preserves_ret
    | apply preserves_raise
    | apply preserves_gets
    | apply preserves_get_event
    | apply preserves_data_lengths
    | apply preserves_acatch
    | apply preserves_except_ValidationError
    | apply preserves_assign_in_acatch
    | apply preserves_for_each; [typeclasses eauto .. | intros ?]
    | apply preserves_bind; [typeclasses eauto .. | idtac | intros ?]
    | apply preserves_modify; [typeclasses eauto .. | intros ?; leaf]
    | apply preserves_execute_sync_or_async;
        [typeclasses eauto .. | intros ? ?; leaf]
    | match goal with
      | |- preserves _ (if ?b then _ else _) => destruct b
      | |- preserves _ (match ?x with _ => _ end) => destruct x eqn:?
      end
    | progress autounfold with dispatcher
    | progress cbv beta iota zeta ].

Ltac tracker_leaf :=
  unfold incoming_grows, outgoing_unchanged; simpl; first [done | set_solver].

#[export] Instance incoming_grows_preorder : PreOrder incoming_grows.
Proof. split; unfold incoming_grows; [intros ?|intros ? ? ?]; set_solver. Qed.

#[export] Instance outgoing_unchanged_preorder : PreOrder outgoing_unchanged.
Proof. split; unfold outgoing_unchanged; [intros ?|intros ? ? ?]; congruence. Qed.

#[export] Instance event_unchanged_preorder e : PreOrder (event_unchanged e).
Proof. split; unfold event_unchanged; [intros ?|intros ? ? ?]; congruence. Qed.

Lemma is_incoming_duplicate_incoming_grows scan th e add :
  preserves incoming_grows (is_incoming_duplicate scan th e add).
Proof.
  intros st.
  unfold is_incoming_duplicate, incoming_grows, bind, get_event, gets, when,
    modify, ret.
  destruct (events st !! e) as [ev|]; [|done].
  destruct add, (_ && _); simpl; set_solver.
Qed.

Lemma queue_event_incoming_grows scan event kwargs :
  preserves incoming_grows (queue_event scan event kwargs).
Proof. unfold queue_event. preserving tracker_leaf fail. Qed.

Lemma distribute_event_incoming_grows scan e :
  preserves incoming_grows (distribute_event scan e).
Proof.
  unfold distribute_event.
  preserving tracker_leaf ltac:(apply queue_event_incoming_grows).
Qed.

Lemma _event_precheck_incoming_grows scan th e :
  preserves incoming_grows (_event_precheck scan th e).
Proof.
  unfold _event_precheck.
  preserving tracker_leaf ltac:(apply is_incoming_duplicate_incoming_grows).
Qed.

Lemma _emit_event_incoming_grows scan e kwargs :
  preserves incoming_grows (_emit_event scan e kwargs).
Proof.
  unfold _emit_event.
  preserving tracker_leaf ltac:(apply distribute_event_incoming_grows).
Qed.

Lemma emit_event_incoming_grows scan th e kwargs :
  preserves incoming_grows (emit_event scan th e kwargs).
Proof.
  unfold emit_event.
  preserving tracker_leaf
    ltac:(first [ apply distribute_event_incoming_grows
                | apply _emit_event_incoming_grows
                | apply _event_precheck_incoming_grows ]).
Qed.

Lemma init_events_incoming_grows scan :
  preserves incoming_grows (init_events scan).
Proof.
  unfold init_events, seed_event.
  preserving tracker_leaf ltac:(apply queue_event_incoming_grows).
Qed.

Lemma run_operation_incoming_grows scan th op st :
  incoming_grows st (run_operation scan th op st).
Proof.
  destruct op; unfold run_operation, exec.
  - apply is_incoming_duplicate_incoming_grows.
  - revert st. change (preserves incoming_grows (is_outgoing_duplicate e add)).
    preserving tracker_leaf fail.
  - apply _event_precheck_incoming_grows.
  - apply queue_event_incoming_grows.
  - apply distribute_event_incoming_grows.
  - apply _emit_event_incoming_grows.
  - apply emit_event_incoming_grows.
  - apply init_events_incoming_grows.
Qed.

Lemma queue_event_outgoing_unchanged scan event kwargs :
  preserves outgoing_unchanged (queue_event scan event kwargs).
Proof. unfold queue_event. preserving tracker_leaf fail. Qed.

Lemma distribute_event_outgoing_unchanged scan e :
  preserves outgoing_unchanged (distribute_event scan e).
Proof.
  unfold distribute_event.
  preserving tracker_leaf ltac:(apply queue_event_outgoing_unchanged).
Qed.

Lemma _event_precheck_outgoing_unchanged scan th e :
  preserves outgoing_unchanged (_event_precheck scan th e).
Proof.
  unfold _event_precheck, is_incoming_duplicate.
  preserving tracker_leaf fail.
Qed.

Lemma _emit_event_outgoing_unchanged scan e kwargs :
  preserves outgoing_unchanged (_emit_event scan e kwargs).
Proof.
  unfold _emit_event.
  preserving tracker_leaf ltac:(apply distribute_event_outgoing_unchanged).
Qed.

Lemma emit_event_outgoing_unchanged scan th e kwargs :
  preserves outgoing_unchanged (emit_event scan th e kwargs).
Proof.
  unfold emit_event.
  preserving tracker_leaf
    ltac:(first [ apply distribute_event_outgoing_unchanged
                | apply _emit_event_outgoing_unchanged
                | apply _event_precheck_outgoing_unchanged ]).
Qed.

Lemma init_events_outgoing_unchanged scan :
  preserves outgoing_unchanged (init_events scan).
Proof.
  unfold init_events, seed_event.
  preserving tracker_leaf ltac:(apply queue_event_outgoing_unchanged).
Qed.

(** ** Further facts about the operations *)

Lemma fst_acatch m st : fst (_acatch m st) = fst (m st).
Proof. unfold _acatch. by destruct (m st) as [st' [a|x]]. Qed.

Ltac event_leaf :=
  unfold event_unchanged; simpl;
  first [done | by rewrite lookup_insert_ne by congruence].

Lemma queue_event_event_unchanged scan e s kwargs :
  s <> e -> preserves (event_unchanged e) (queue_event scan (Some s) kwargs).
Proof. intros Hne. unfold queue_event. preserving event_leaf fail. Qed.

(** The record of the event after [distribute_event], for an event that is
    not its own source. *)
Lemma distribute_event_event_record scan e st ev :
  events st !! e = Some ev ->
  source ev <> Some e ->
  events (exec (distribute_event scan e) st) !! e =
    Some (if negb (always_emit ev
                   || (scope_distance ev <=? scope_report_distance scan))
          then set_internal true ev else ev).
Proof.
  intros He Hsrc.
  unfold exec, distribute_event. rewrite fst_acatch.
  erewrite bind_get_event by eassumption.
  set (ev1 := if negb _ then set_internal true ev else ev).
  assert (exists st1,
            events st1 !! e = Some ev1
            /\ forall B (k : unit -> M B),
                 bind (when (negb (always_emit ev
                                   || (scope_distance ev
                                       <=? scope_report_distance scan)))
                         (setattr (Some e) (set_internal true))) k st
                 = k tt st1) as (st1 & He1 & ->).
  { subst ev1. destruct (negb _).
    - eexists. split; [|intros B k; rewrite bind_when_true;
                         by erewrite bind_setattr by eassumption].
      simpl. apply lookup_insert_eq.
    - exists st. split; [exact He|]. intros B k. by rewrite bind_when_false. }
  erewrite bind_get_event by eassumption.
  assert (source ev1 = source ev) as ->.
  { subst ev1. by destruct (negb _). }
  destruct (source ev) as [s|] eqn:Hs; [|exact He1].
  assert (s <> e) as Hne by congruence.
  match goal with
  | |- events (fst (?m st1)) !! _ = _ =>
      assert (preserves (event_unchanged e) m) as Hframe;
      [|specialize (Hframe st1); unfold event_unchanged in Hframe;
        by rewrite Hframe]
  end.
  preserving event_leaf ltac:(apply queue_event_event_unchanged; assumption).
Qed.

Lemma _event_precheck_eq scan th e st ev s sv :
  events st !! e = Some ev ->
  source ev = Some s ->
  events st !! s = Some sv ->
  let fingerprint := incoming_hash scan th ev in
  let incoming_duplicate :=
    suppress_dupes_of scan ev
    && bool_decide (fingerprint ∈ incoming_dup_tracker st) in
  _event_precheck scan th e st =
    (if _dummy ev || (hash ev =? hash sv) || _graph_important ev then st
     else with_incoming ({[fingerprint]} ∪ incoming_dup_tracker st) st,
     Returns (negb (_dummy ev || (hash ev =? hash sv)
                    || (incoming_duplicate && negb (_graph_important ev))))).
Proof.
  intros He Hs Hsv. cbv zeta.
  unfold _event_precheck. rewrite run_as_bind, bind_bind.
  erewrite bind_get_event by eassumption.
  destruct (_dummy ev); simpl; [reflexivity|].
  unfold equals_own_source. rewrite Hs.
  repeat mstep.
  destruct (hash ev =? hash sv); simpl; [reflexivity|].
  destruct (_graph_important ev); simpl.
  { rewrite bind_ret. by rewrite andb_false_r. }
  unfold is_incoming_duplicate. repeat mstep.
  rewrite andb_true_r.
  by destruct (suppress_dupes_of scan ev && _).
Qed.

(** An event the precheck accepts is not its own source. *)
Lemma _event_precheck_rejects_own_source scan th e st ev :
  events st !! e = Some ev ->
  source ev = Some e ->
  _event_precheck scan th e st = (st, Returns false).
Proof.
  intros He Hs.
  rewrite (_event_precheck_eq scan th e st ev e ev He Hs He).
  rewrite Z.eqb_refl. by destruct (_dummy ev).
Qed.

Lemma distribute_event_returns scan e st :
  snd (distribute_event scan e st) = Returns tt.
Proof.
  unfold distribute_event, _acatch.
  match goal with |- snd (match ?r with _ => _ end) = _ => destruct r as [st' [a|x]] end;
    reflexivity.
Qed.

Lemma bind_returns {A B} (m : M A) (k : A -> M B) st st' a :
  m st = (st', Returns a) -> bind m k st = k a st'.
Proof. intros H. unfold bind. by rewrite H. Qed.

Lemma except_ValidationError_returns m st :
  snd (m st) = Returns tt -> except_ValidationError m st = m st.
Proof.
  unfold except_ValidationError. destruct (m st) as [st' [a|x]]; [done|].
  discriminate.
Qed.

(** ** The scan-global duplicate check in the distributor (C1) *)

(** C1 does not hold of the code: [distribute_event] calls
    [is_outgoing_duplicate] without [add], so it never changes the outgoing
    tracker, whatever the scan, the event and the state; neither do
    [emit_event], [queue_event] and [init_events].  On two events with the
    same canonical hash, distributed one after the other to a module that
    refuses duplicates and whose [_is_graph_important] is false, the tracker
    stays empty and the module receives both. *)
Theorem distribute_event_never_records_the_fingerprint :
  (forall scan e st,
     outgoing_dup_tracker (exec (distribute_event scan e) st)
     = outgoing_dup_tracker st)
  /\ (forall scan th e kwargs st,
        outgoing_dup_tracker (exec (emit_event scan th e kwargs) st)
        = outgoing_dup_tracker st)
  /\ (forall scan event kwargs st,
        outgoing_dup_tracker (exec (queue_event scan event kwargs) st)
        = outgoing_dup_tracker st)
  /\ (forall scan st,
        outgoing_dup_tracker (exec (init_events scan) st)
        = outgoing_dup_tracker st)
  /\ (let scan := example_scan 0 in
      let st1 := exec (distribute_event scan 1%nat) (init twin_store) in
      let st2 := exec (distribute_event scan 2%nat) st1 in
      hash <$> twin_store !! 1%nat = hash <$> twin_store !! 2%nat
      /\ accept_dupes (module_object scan 7%nat) = false
      /\ (forall ev, _is_graph_important (module_object scan 7%nat) ev = false)
      /\ outgoing_dup_tracker st1 = ∅
      /\ outgoing_dup_tracker st2 = ∅
      /\ module_inbox st2 = [(7%nat, 1%nat); (7%nat, 2%nat)]).
Proof.
  split; [|split; [|split; [|split]]].
  - intros scan e st. apply (distribute_event_outgoing_unchanged scan e st).
  - intros scan th e kwargs st.
    apply (emit_event_outgoing_unchanged scan th e kwargs st).
  - intros scan event kwargs st.
    apply (queue_event_outgoing_unchanged scan event kwargs st).
  - intros scan st. apply (init_events_outgoing_unchanged scan st).
  - cbv zeta. repeat split; vm_compute; reflexivity.
Qed.

(** ** The precheck filter (C3) *)




(** ** Ancestor promotion (C4) *)

(** C4: in [distribute_event], let [s] be the source of the event, read as
    the promotion step finds it, that is after the internalisation step.
    The promotion condition is: the source is internal, and the event is not
    internal or is graph-important.  When the condition holds, the source's
    [internal] flag is cleared if its scope distance is within the report
    distance and kept otherwise, the source ends up graph-important, and it is
    put on the shared ingress queue exactly when it was not graph-important
    before; a source that was already graph-important is not re-queued.
    When the condition fails, the source and the queue are left alone. *)
Theorem ancestor_promotion scan e st ev s sv g gv :
  events st !! e = Some ev ->
  source ev = Some s ->
  events st !! s = Some sv ->
  source sv = Some g ->
  events st !! g = Some gv ->
  let rd := scope_report_distance scan in
  let ev1 := if negb (always_emit ev || (scope_distance ev <=? rd))
             then set_internal true ev else ev in
  let src := if decide (s = e) then ev1 else sv in
  let promote :=
    internal src && (negb (internal ev1) || _graph_important ev1) in
  let st' := exec (distribute_event scan e) st in
  exists sv',
    events st' !! s = Some sv'
    /\ (promote = true ->
          internal sv' = negb (scope_distance src <=? rd)
          /\ _graph_important sv' = true
          /\ incoming_event_queue st' =
               if _graph_important src then incoming_event_queue st
               else incoming_event_queue st ++ [(s, no_kwargs)])
    /\ (promote = false ->
          sv' = src /\ incoming_event_queue st' = incoming_event_queue st).
Proof.
  intros He Hs Hsv Hg Hgv rd ev1 src promote st'.
  subst st' promote src ev1. unfold exec.
  destruct (decide (s = e)) as [->|Hne].
  - pose proof (distribute_event_self_eq scan e st ev He Hs) as Heq.
    cbv zeta in Heq. rewrite Heq. clear Heq. simpl.
    rewrite lookup_insert_eq. eexists. split; [reflexivity|]. fold rd.
    destruct (always_emit ev), (scope_distance ev <=? rd) eqn:Hd; simpl.
    all: destruct (internal ev) eqn:Hie, (_graph_important ev) eqn:Hge; simpl;
         rewrite ?Hd; simpl;
         (split; intros Hp; [try discriminate Hp|try discriminate Hp]).
    all: repeat split; simpl; rewrite ?Hie, ?Hge, ?Hd; reflexivity.
  - pose proof (distribute_event_eq scan e st ev s sv g gv He Hs Hne Hsv Hg Hgv)
      as Heq.
    cbv zeta in Heq. rewrite Heq. clear Heq. simpl.
    rewrite lookup_insert_eq. eexists. split; [reflexivity|]. fold rd.
    destruct (always_emit ev), (scope_distance ev <=? rd); simpl.
    all: destruct (internal ev) eqn:Hie, (_graph_important ev) eqn:Hge,
           (internal sv) eqn:Hi, (scope_distance sv <=? rd),
           (_graph_important sv) eqn:Hgi; simpl;
         (split; intros Hp; [try discriminate Hp|try discriminate Hp]).
    all: repeat split; simpl; rewrite ?Hi, ?Hgi; try reflexivity.
    all: repeat match goal with
                | |- context [if ?b then _ else _] => destruct b; simpl
                end;
         rewrite ?Hi, ?Hgi; reflexivity.
Qed.

Lemma ancestor_promotion_witness :
  let st' := exec (distribute_event (example_scan 5) 2%nat) (init chain_store) in
  exists sv',
    events st' !! 1%nat = Some sv'
    /\ internal sv' = false
    /\ _graph_important sv' = true
    /\ incoming_event_queue st' = [(1%nat, no_kwargs)].
Proof.
  destruct (ancestor_promotion (example_scan 5) 2%nat (init chain_store)
              example_leaf 1%nat example_sub 0%nat example_root
              eq_refl eq_refl eq_refl eq_refl eq_refl)
    as (sv' & Hsv' & Hpromoted & _).
  exists sv'. split; [exact Hsv'|]. exact (Hpromoted eq_refl).
Defined.

(** ** Report-distance internalisation (C5) *)

(** C5: after [distribute_event], the [internal] flag of the event is true
    when the event is not [always_emit] and its scope distance exceeds the
    scan's report distance, and is what it was before when the event will be
    output ([always_emit], or within the report distance).  Every other
    attribute of the event is as before.  The event is one that is not its
    own source, as is every event that passed the precheck. *)
Theorem report_distance_internalisation scan e st ev :
  events st !! e = Some ev ->
  source ev <> Some e ->
  let beyond_report_distance :=
    negb (always_emit ev) && (scope_report_distance scan <? scope_distance ev) in
  exists ev',
    events (exec (distribute_event scan e) st) !! e = Some ev'
    /\ internal ev' = (if beyond_report_distance then true else internal ev)
    /\ (data ev', hash ev', source ev', module ev', scope_distance ev',
        web_spider_distance ev', tags ev', host ev')
       = (data ev, hash ev, source ev, module ev, scope_distance ev,
          web_spider_distance ev, tags ev, host ev)
    /\ (_dummy ev', _graph_important ev', always_emit ev', quick_emit ev',
        module_priority ev', scan_ref ev')
       = (_dummy ev, _graph_important ev, always_emit ev, quick_emit ev,
          module_priority ev, scan_ref ev).
Proof.
  intros He Hsrc beyond_report_distance.
  assert (beyond_report_distance =
          negb (always_emit ev
                || (scope_distance ev <=? scope_report_distance scan))) as ->.
  { subst beyond_report_distance. rewrite negb_orb. f_equal.
    apply Z.ltb_antisym. }
  rewrite (distribute_event_event_record scan e st ev He Hsrc).
  eexists. split; [reflexivity|].
  destruct (negb _); repeat split.
Qed.

Lemma report_distance_internalisation_witness :
  internal example_leaf = false
  /\ internal
       <$> events (exec (distribute_event (example_scan 0) 2%nat)
                     (init chain_store)) !! 2%nat = Some true
  /\ internal
       <$> events (exec (distribute_event (example_scan 5) 2%nat)
                     (init chain_store)) !! 2%nat = Some false.
Proof.
  split; [reflexivity|]. split.
  - destruct (report_distance_internalisation (example_scan 0) 2%nat
                (init chain_store) example_leaf eq_refl ltac:(discriminate))
      as (ev' & Hrecord & Hflag & _).
    rewrite Hrecord. cbn [fmap option_fmap option_map]. by rewrite Hflag.
  - destruct (report_distance_internalisation (example_scan 5) 2%nat
                (init chain_store) example_leaf eq_refl ltac:(discriminate))
      as (ev' & Hrecord & Hflag & _).
    rewrite Hrecord. cbn [fmap option_fmap option_map]. by rewrite Hflag.
Defined.

(** ** The dispatcher's own ingress (C6) *)

(** C6: [queue_event] on an event whose source is an event of the store
    returns normally and does three things in this order.  If the event's
    scope distance is positive and the event is not both whitelisted and
    free of the blacklist, its module priority grows by that scope distance,
    otherwise the priority stays; then its scope distance becomes the
    scope distance of its source plus one; then the event, with the keyword
    arguments, is put on the shared ingress queue.  No other attribute of
    the event and no other event changes. *)
Theorem queue_event_deprioritises_rescopes_enqueues scan e kwargs st ev s sv :
  events st !! e = Some ev ->
  source ev = Some s ->
  events st !! s = Some sv ->
  let out_of_scope :=
    (0 <? scope_distance ev)
    && negb (whitelisted scan ev && negb (blacklisted scan ev)) in
  let st' := exec (queue_event scan (Some e) kwargs) st in
  snd (queue_event scan (Some e) kwargs st) = Returns tt
  /\ (exists ev',
        events st' !! e = Some ev'
        /\ module_priority ev' =
             (if out_of_scope then module_priority ev + scope_distance ev
              else module_priority ev)
        /\ scope_distance ev' = scope_distance sv + 1
        /\ ev' = set_scope_distance (scope_distance ev')
                   (set_module_priority (module_priority ev') ev))
  /\ (forall x, x <> e -> events st' !! x = events st !! x)
  /\ incoming_event_queue st' = incoming_event_queue st ++ [(e, kwargs)].
Proof.
  intros He Hs Hsv out_of_scope st'. subst st'. unfold exec.
  rewrite (queue_event_eq scan e kwargs st ev s sv He Hs Hsv). simpl.
  fold out_of_scope.
  split; [reflexivity|]. split; [|split].
  - eexists. split; [apply lookup_insert_eq|].
    destruct out_of_scope; simpl; repeat split; destruct ev; reflexivity.
  - intros x Hx. by rewrite lookup_insert_ne.
  - reflexivity.
Qed.

Lemma queue_event_deprioritises_rescopes_enqueues_witness :
  let st' := exec (queue_event (example_scan 0) (Some 1%nat) no_kwargs)
               (init chain_store) in
  events st' !! 1%nat =
    Some (example_event "sub.example.com" 101 (Some 0%nat) 1 6 true false)
  /\ incoming_event_queue st' = [(1%nat, no_kwargs)].
Proof.
  destruct (queue_event_deprioritises_rescopes_enqueues
              (example_scan 0) 1%nat no_kwargs (init chain_store)
              example_sub 0%nat example_root
              eq_refl eq_refl eq_refl)
    as (_ & (ev' & Hev' & Hprio & Hdist & Hrest) & _ & Hqueue).
  split.
  - rewrite Hev'. f_equal. rewrite Hrest, Hprio, Hdist. reflexivity.
  - exact Hqueue.
Defined.

(** ** Fan-out to the modules (C7) *)

(** C7: [distribute_event] hands the event to module sinks only in its
    fan-out loop, once per entry of [scan.modules] that passes the test, in
    the order of that mapping: a hook module never receives the event, and a
    module that is not a hook receives it if and only if the event is not a
    scan-global duplicate (its canonical hash is not in the outgoing
    tracker), or the module accepts duplicates, or the module's
    [_is_graph_important] holds of the event. *)
Theorem fan_out_delivery scan e st ev s sv g gv :
  events st !! e = Some ev ->
  source ev = Some s ->
  events st !! s = Some sv ->
  source sv = Some g ->
  events st !! g = Some gv ->
  let is_global_duplicate := bool_decide (hash ev ∈ outgoing_dup_tracker st) in
  let st' := exec (distribute_event scan e) st in
  exists ev' calls,
    events st' !! e = Some ev'
    /\ module_inbox st' = module_inbox st ++ calls
    /\ calls =
         map (fun r => (r, e))
           (List.filter (deliverable scan is_global_duplicate ev')
              (modules_values scan))
    /\ forall r,
         In (r, e) calls <->
           In r (modules_values scan)
           /\ _hook (module_object scan r) = false
           /\ (is_global_duplicate = false
               \/ accept_dupes (module_object scan r) = true
               \/ _is_graph_important (module_object scan r) ev' = true).
Proof.
  intros He Hs Hsv Hg Hgv is_global_duplicate st'.
  assert (exists ev',
            events st' !! e = Some ev'
            /\ module_inbox st' =
                 module_inbox st
                 ++ map (fun r => (r, e))
                      (List.filter (deliverable scan is_global_duplicate ev')
                         (modules_values scan)))
    as (ev' & Hev' & Hinbox).
  { subst st'. unfold exec. destruct (decide (s = e)) as [->|Hne].
    - pose proof (distribute_event_self_eq scan e st ev He Hs) as Heq.
      cbv zeta in Heq. rewrite Heq. clear Heq. simpl.
      rewrite lookup_insert_eq. eexists. split; reflexivity.
    - pose proof (distribute_event_eq scan e st ev s sv g gv
                    He Hs Hne Hsv Hg Hgv) as Heq.
      cbv zeta in Heq. rewrite Heq. clear Heq. simpl.
      rewrite lookup_insert_ne by done. rewrite lookup_insert_eq.
      eexists. split; reflexivity. }
  exists ev'. eexists. split; [exact Hev'|]. split; [exact Hinbox|].
  split; [reflexivity|]. intros r.
  rewrite in_map_iff. split.
  - intros (r' & Hr' & Hin). injection Hr' as ->.
    apply filter_In in Hin as [Hin Hok]. split; [exact Hin|].
    unfold deliverable in Hok.
    destruct (_hook (module_object scan r)); [discriminate|].
    split; [reflexivity|].
    destruct is_global_duplicate; [|by left].
    destruct (accept_dupes (module_object scan r)); [by right; left|].
    right; right. exact Hok.
  - intros (Hin & Hhook & Hok). exists r. split; [reflexivity|].
    apply filter_In. split; [exact Hin|].
    unfold deliverable. rewrite Hhook. simpl.
    destruct Hok as [->| [->| ->]]; simpl;
      repeat match goal with
             | |- context [negb ?b] => destruct b; simpl
             | |- context [?b || true] => destruct b; simpl
             end; reflexivity.
Qed.

Lemma fan_out_delivery_witness :
  let st := with_outgoing {[102]} (init chain_store) in
  module_inbox (exec (distribute_event (example_scan 5) 2%nat) (init chain_store))
    = [(7%nat, 2%nat)]
  /\ module_inbox (exec (distribute_event (example_scan 5) 2%nat) st) = [].
Proof.
  split.
  - destruct (fan_out_delivery (example_scan 5) 2%nat (init chain_store)
                example_leaf 1%nat example_sub 0%nat example_root
                eq_refl eq_refl eq_refl eq_refl eq_refl)
      as (ev' & calls & Hev' & Hinbox & Hcalls & _).
    rewrite Hinbox, Hcalls. reflexivity.
  - destruct (fan_out_delivery (example_scan 5) 2%nat
                (with_outgoing {[102]} (init chain_store))
                example_leaf 1%nat example_sub 0%nat example_root
                eq_refl eq_refl eq_refl eq_refl eq_refl)
      as (ev' & calls & Hev' & Hinbox & Hcalls & _).
    rewrite Hinbox, Hcalls. reflexivity.
Defined.

(** ** The incoming duplicate check (C8) *)

(** C8: [is_incoming_duplicate] returns true exactly when the event's
    per-producer fingerprint (the producer's custom key when it defines one,
    else the hash of the pair of the event and the producer's name) is
    already in the incoming tracker and the producer suppresses duplicates
    (true when the attribute is absent); and no operation of the dispatcher
    ever removes an entry from the incoming tracker. *)
Theorem incoming_duplicate_check_and_tracker_growth scan th :
  (forall e add st,
     snd (is_incoming_duplicate scan th e add st) =
       match events st !! e with
       | Some ev =>
           let fingerprint :=
             match module ev with
             | Some r =>
                 match _outgoing_dedup_hash (module_object scan r) with
                 | Some custom => custom ev
                 | None => th (hash ev) (name (module_object scan r))
                 end
             | None => th (hash ev) "None"
             end in
           let suppress :=
             match module ev with
             | Some r => default true (suppress_dupes (module_object scan r))
             | None => true
             end in
           Returns (bool_decide (fingerprint ∈ incoming_dup_tracker st)
                    && suppress)
       | None => Raises AttributeError
       end)
  /\ (forall ops st,
        incoming_dup_tracker st
          ⊆ incoming_dup_tracker (run_operations scan th ops st)).
Proof.
  split.
  - intros e add st.
    unfold is_incoming_duplicate, bind, get_event, gets, when, modify, ret.
    destruct (events st !! e) as [ev|]; [|done].
    unfold incoming_hash, suppress_dupes_of, module_str.
    destruct (module ev) as [r|]; simpl.
    + destruct (_outgoing_dedup_hash (module_object scan r));
        destruct (default true (suppress_dupes (module_object scan r)));
        destruct add; simpl; try destruct (bool_decide _); reflexivity.
    + destruct add; simpl; destruct (bool_decide _); reflexivity.
  - intros ops. unfold run_operations.
    induction ops as [|op ops IH]; intros st; simpl; [done|].
    etransitivity; [apply (run_operation_incoming_grows scan th op st)|apply IH].
Qed.

(** ** The abort check of the slow emit path (C9) *)

(** C9: in [_emit_event], for an event that is not blacklisted and an
    [abort_if] that is callable, the callable runs once on the event, be it
    a coroutine function or a plain one.  If it returns a pair, the first
    component is the result and the second the reason put in the logged
    message, and any other value is the result itself.  If the result is
    truthy, the message is logged and the event is dropped: no module
    receives it, the word cloud does not absorb it, nothing is queued.  If
    the result is falsy, or if the callable raises, the emission goes on with
    the success callback and the distribution of the event. *)
Theorem abort_if_veto_and_failure scan e kwargs f st ev :
  events st !! e = Some ev ->
  blacklisted scan ev = false ->
  "blacklisted" ∉ tags ev ->
  abort_if kwargs = Callable f ->
  let st1 :=
    if host_truthy ev && whitelisted scan ev
    then with_events (<[e := set_scope_distance 0 ev]> (events st)) st
    else st in
  let called := call f e (events st1) in
  let st2 := with_events (fst called) st1 in
  forall ev2, events st2 !! e = Some ev2 ->
  let proceed :=
    match on_success_callback kwargs with
    | Callable g => _acatch (let* _ := execute_sync_or_async g e in ret tt)
    | _ => ret tt
    end >> distribute_event scan e in
  let run := _emit_event scan e kwargs st in
  (forall x, snd called = Raises x -> run = proceed st2)
  /\ (forall v, snd called = Returns v ->
        let result :=
          match unpack2 v with Some (first, _) => first | None => v end in
        let reason :=
          match unpack2 v with Some (_, second) => Some second | None => None end in
        (truthy result = false -> run = proceed st2)
        /\ (truthy result = true ->
            run = (with_log
                     (verbose_log st
                      ++ [AbortMessage (module_str scan (module ev2)) e reason])
                     st2,
                   Returns tt)
            /\ module_inbox (fst run) = module_inbox st
            /\ word_cloud (fst run) = word_cloud st
            /\ incoming_event_queue (fst run) = incoming_event_queue st)).
Proof.
  intros He Hbl Htag Habort st1 called st2 ev2 He2 proceed run.
  assert (forall st0, snd (proceed st0) = Returns tt) as Hproceed.
  { intros st0. subst proceed.
    destruct (on_success_callback kwargs) as [| |g];
      [apply distribute_event_returns..|].
    unfold bind at 1, _acatch.
    match goal with
    | |- snd (match (match ?r with _ => _ end) with _ => _ end) = _ =>
        destruct r as [st' [a|x]]
    end; apply distribute_event_returns. }
  assert (run =
          except_ValidationError
            (let* aborted :=
               (let* abort_result :=
                  assign_in_acatch (VBool false) (execute_sync_or_async f e) in
                let* ev := get_event e in
                let '(abort_result, reason) :=
                  match unpack2 abort_result with
                  | Some (first, second) => (first, Some second)
                  | None => (abort_result, None)
                  end in
                if truthy abort_result then
                  log_verbose (AbortMessage (module_str scan (module ev)) e reason) >>
                  ret true
                else ret false) in
             if aborted then ret tt else proceed) st1) as Hrun.
  { subst run st1. unfold _emit_event, except_ValidationError.
    erewrite bind_get_event by eassumption.
    rewrite Hbl, Habort. rewrite (bool_decide_eq_false_2 _ Htag). cbn [orb].
    destruct (host_truthy ev && whitelisted scan ev).
    - rewrite bind_when_true. by erewrite bind_setattr by eassumption.
    - by rewrite bind_when_false. }
  rewrite Hrun. clear Hrun.
  assert (assign_in_acatch (VBool false) (execute_sync_or_async f e) st1 =
          (st2, Returns (match snd called with
                         | Returns v => v
                         | Raises _ => VBool false
                         end))) as Hcall.
  { subst st2 called. unfold assign_in_acatch, execute_sync_or_async.
    destruct (is_coroutine f); by destruct (call f e (events st1)) as [h [v|x]]. }
  split.
  - intros x Hx. rewrite except_ValidationError_returns.
    + rewrite bind_bind, (bind_returns _ _ _ _ _ Hcall), Hx.
      rewrite bind_bind. erewrite bind_get_event by eassumption. reflexivity.
    + rewrite bind_bind, (bind_returns _ _ _ _ _ Hcall), Hx.
      rewrite bind_bind. erewrite bind_get_event by eassumption. apply Hproceed.
  - intros v Hv result reason. split.
    + intros Hfalsy. rewrite except_ValidationError_returns.
      * rewrite bind_bind, (bind_returns _ _ _ _ _ Hcall), Hv.
        rewrite bind_bind. erewrite bind_get_event by eassumption.
        subst result. destruct (unpack2 v) as [[first second]|];
          rewrite Hfalsy; reflexivity.
      * rewrite bind_bind, (bind_returns _ _ _ _ _ Hcall), Hv.
        rewrite bind_bind. erewrite bind_get_event by eassumption.
        subst result. destruct (unpack2 v) as [[first second]|];
          rewrite Hfalsy; apply Hproceed.
    + intros Htruthy.
      assert (except_ValidationError
                (let* aborted :=
                   (let* abort_result :=
                      assign_in_acatch (VBool false) (execute_sync_or_async f e) in
                    let* ev := get_event e in
                    let '(abort_result, reason) :=
                      match unpack2 abort_result with
                      | Some (first, second) => (first, Some second)
                      | None => (abort_result, None)
                      end in
                    if truthy abort_result then
                      log_verbose
                        (AbortMessage (module_str scan (module ev)) e reason) >>
                      ret true
                    else ret false) in
                 if aborted then ret tt else proceed) st1
              = (with_log
                   (verbose_log st
                    ++ [AbortMessage (module_str scan (module ev2)) e reason])
                   st2,
                 Returns tt)) as ->.
      { unfold except_ValidationError.
        rewrite bind_bind, (bind_returns _ _ _ _ _ Hcall), Hv.
        rewrite bind_bind. erewrite bind_get_event by eassumption.
        subst result reason. destruct (unpack2 v) as [[first second]|];
          rewrite Htruthy; unfold log_verbose; rewrite bind_bind, bind_modify;
          simpl; subst st2 st1; by destruct (host_truthy ev && whitelisted scan ev). }
      split; [reflexivity|]. simpl. subst st2 st1.
      by destruct (host_truthy ev && whitelisted scan ev).
Qed.

Lemma abort_if_veto_and_failure_witness :
  let vetoed :=
    _emit_event (example_scan 5) 2%nat (abort_kwargs veto_with_reason)
      (init chain_store) in
  let failed :=
    _emit_event (example_scan 5) 2%nat (abort_kwargs failing_callback)
      (init chain_store) in
  verbose_log (fst vetoed) = [AbortMessage "sink" 2%nat (Some (VStr "user policy"))]
  /\ module_inbox (fst vetoed) = []
  /\ module_inbox (fst failed) = [(7%nat, 2%nat)].
Proof.
  cbv zeta.
  destruct (abort_if_veto_and_failure (example_scan 5) 2%nat
              (abort_kwargs veto_with_reason) veto_with_reason
              (init chain_store) example_leaf
              eq_refl eq_refl (not_elem_of_empty _) eq_refl
              example_leaf eq_refl) as (_ & Hreturned).
  destruct (Hreturned _ eq_refl) as (_ & Hvetoed).
  destruct (Hvetoed eq_refl) as (Hrun & Hinbox & _).
  destruct (abort_if_veto_and_failure (example_scan 5) 2%nat
              (abort_kwargs failing_callback) failing_callback
              (init chain_store) example_leaf
              eq_refl eq_refl (not_elem_of_empty _) eq_refl
              example_leaf eq_refl) as (Hraised & _).
  split; [|split].
  - rewrite Hrun. reflexivity.
  - exact Hinbox.
  - rewrite (Hraised OtherError eq_refl). vm_compute. reflexivity.
Defined.

(** ** Side effects of re-queueing a promoted ancestor (C10) *)

(** C10: when ancestor promotion applies to a source that is not yet
    graph-important, the source is re-queued through [queue_event], which
    changes it further: its scope distance is overwritten with the scope
    distance of its own source plus one, although its [internal] flag was
    decided on the scope distance it had before; and if that former scope
    distance is positive and the promoted source is not both whitelisted and
    free of the blacklist, its module priority grows by that former scope
    distance (in particular when it is out of scope and not whitelisted),
    and stays otherwise. *)
Theorem requeued_ancestor_is_rescoped_and_deprioritised scan e st ev s sv g gv :
  events st !! e = Some ev ->
  source ev = Some s ->
  events st !! s = Some sv ->
  source sv = Some g ->
  events st !! g = Some gv ->
  let rd := scope_report_distance scan in
  let ev1 := if negb (always_emit ev || (scope_distance ev <=? rd))
             then set_internal true ev else ev in
  let src := if decide (s = e) then ev1 else sv in
  internal src = true ->
  negb (internal ev1) || _graph_important ev1 = true ->
  _graph_important src = false ->
  let promoted :=
    set_graph_important true
      (if scope_distance src <=? rd then set_internal false src else src) in
  let in_scope := whitelisted scan promoted && negb (blacklisted scan promoted) in
  let st' := exec (distribute_event scan e) st in
  exists sv',
    events st' !! s = Some sv'
    /\ incoming_event_queue st' = incoming_event_queue st ++ [(s, no_kwargs)]
    /\ scope_distance sv' = scope_distance gv + 1
    /\ internal sv' = negb (scope_distance src <=? rd)
    /\ module_priority sv' =
         (if (0 <? scope_distance src) && negb in_scope
          then module_priority src + scope_distance src
          else module_priority src)
    /\ (0 < scope_distance src -> whitelisted scan promoted = false ->
        module_priority sv' = module_priority src + scope_distance src).
Proof.
  intros He Hs Hsv Hg Hgv rd ev1 src Hi Hvisible Hgi promoted in_scope st'.
  subst src. destruct (decide (s = e)) as [->|Hne].
  { exfalso. simpl in Hi, Hgi.
    rewrite Hi, Hgi in Hvisible. discriminate. }
  simpl in Hi, Hgi, promoted.
  pose proof (distribute_event_eq scan e st ev s sv g gv He Hs Hne Hsv Hg Hgv)
    as Heq.
  cbv zeta in Heq. subst st'. unfold exec. rewrite Heq. clear Heq. simpl.
  rewrite lookup_insert_eq. eexists. split; [reflexivity|]. fold rd.
  fold ev1.
  assert (_graph_important ev = _graph_important ev1) as ->.
  { unfold ev1. by destruct (negb (always_emit ev || _)). }
  rewrite Hi, Hvisible, Hgi. simpl. fold promoted. fold in_scope.
  split; [reflexivity|].
  assert (internal promoted = negb (scope_distance sv <=? rd)) as Hflag.
  { subst promoted. destruct (scope_distance sv <=? rd); simpl; congruence. }
  assert (module_priority promoted = module_priority sv) as Hprio.
  { subst promoted. by destruct (scope_distance sv <=? rd). }
  destruct ((0 <? scope_distance sv) && negb in_scope) eqn:Hnerf; simpl;
    repeat split; try assumption.
  - intros Hpos Hwl. subst in_scope. rewrite Hwl in Hnerf.
    apply Z.ltb_lt in Hpos. rewrite Hpos in Hnerf. discriminate.
Qed.

Lemma requeued_ancestor_is_rescoped_and_deprioritised_witness :
  let st' := exec (distribute_event (example_scan 5) 2%nat) (init chain_store) in
  exists sv',
    events st' !! 1%nat = Some sv'
    /\ scope_distance example_sub = 3
    /\ scope_distance sv' = 1
    /\ module_priority example_sub = 3
    /\ module_priority sv' = 6.
Proof.
  destruct (requeued_ancestor_is_rescoped_and_deprioritised
              (example_scan 5) 2%nat (init chain_store)
              example_leaf 1%nat example_sub 0%nat example_root
              eq_refl eq_refl eq_refl eq_refl eq_refl
              eq_refl eq_refl eq_refl)
    as (sv' & Hsv' & _ & Hdistance & _ & Hpriority & _).
  exists sv'. repeat split; [exact Hsv'|exact Hdistance|exact Hpriority].
Defined.

(** * Further properties of the dispatcher *)

(** ** The two duplicate checks *)

(** X1: [is_outgoing_duplicate] answers whether the canonical hash of the
    event is already in the outgoing tracker, and records it only when [add]
    is set.  After a call with [add], a later call on any event with the
    same hash answers true; after a call without [add] the answer is as
    before. *)
Theorem is_outgoing_duplicate_check_and_add e e' add add' st ev ev' :
  events st !! e = Some ev ->
  events st !! e' = Some ev' ->
  hash ev' = hash ev ->
  let first := is_outgoing_duplicate e add st in
  let second := is_outgoing_duplicate e' add' (fst first) in
  let seen := bool_decide (hash ev ∈ outgoing_dup_tracker st) in
  first = (if add then with_outgoing ({[hash ev]} ∪ outgoing_dup_tracker st) st
           else st,
           Returns seen)
  /\ snd second = Returns (add || seen).
Proof.
  intros He He' Hh first second seen. subst first second seen.
  unfold is_outgoing_duplicate.
  rewrite (run_as_bind (bind _ _)). repeat mstep.
  destruct add; simpl.
  - split; [reflexivity|].
    rewrite (run_as_bind (bind _ _)). repeat mstep. rewrite Hh.
    rewrite bool_decide_eq_true_2
      by (apply elem_of_union_l, elem_of_singleton_2; reflexivity).
    by destruct add'.
  - split; [reflexivity|].
    rewrite (run_as_bind (bind _ _)). repeat mstep. rewrite Hh.
    by destruct add'.
Qed.

Lemma is_incoming_duplicate_eq scan th e add st ev :
  events st !! e = Some ev ->
  is_incoming_duplicate scan th e add st =
    (if add
     then with_incoming ({[incoming_hash scan th ev]} ∪ incoming_dup_tracker st) st
     else st,
     Returns (suppress_dupes_of scan ev
              && bool_decide (incoming_hash scan th ev ∈ incoming_dup_tracker st))).
Proof.
  intros He. unfold is_incoming_duplicate.
  rewrite (run_as_bind (bind _ _)). repeat mstep.
  - by destruct (suppress_dupes_of scan ev && _).
  - by destruct (suppress_dupes_of scan ev && _).
Qed.

(** X2: [is_incoming_duplicate] records the per-producer fingerprint only
    when [add] is set.  A later call on an event with the same fingerprint
    answers true exactly when its producer suppresses duplicates and the
    fingerprint was recorded or already present; recording it twice leaves
    the tracker as recording it once. *)
Theorem is_incoming_duplicate_check_and_add scan th e e' add add' st ev ev' :
  events st !! e = Some ev ->
  events st !! e' = Some ev' ->
  incoming_hash scan th ev' = incoming_hash scan th ev ->
  let fingerprint := incoming_hash scan th ev in
  let first := is_incoming_duplicate scan th e add st in
  let second := is_incoming_duplicate scan th e' add' (fst first) in
  let seen := bool_decide (fingerprint ∈ incoming_dup_tracker st) in
  fst first = (if add
               then with_incoming ({[fingerprint]} ∪ incoming_dup_tracker st) st
               else st)
  /\ snd second = Returns (suppress_dupes_of scan ev' && (add || seen))
  /\ (add = true ->
      incoming_dup_tracker (fst second) = incoming_dup_tracker (fst first)).
Proof.
  intros He He' Hfp fingerprint first second seen.
  subst first second seen fingerprint.
  rewrite (is_incoming_duplicate_eq scan th e add st ev He). simpl.
  split; [reflexivity|].
  assert (events (if add
                  then with_incoming
                         ({[incoming_hash scan th ev]} ∪ incoming_dup_tracker st) st
                  else st) !! e' = Some ev') as He1 by (by destruct add).
  rewrite (is_incoming_duplicate_eq scan th e' add' _ ev' He1). simpl.
  rewrite Hfp. destruct add; simpl.
  - rewrite bool_decide_eq_true_2
      by (apply elem_of_union_l, elem_of_singleton_2; reflexivity).
    split; [reflexivity|].
    intros _. destruct add'; simpl; [|reflexivity].
    apply set_eq. intros x. rewrite !elem_of_union. tauto.
  - split; [reflexivity|]. discriminate.
Qed.

Lemma is_incoming_duplicate_check_and_add_witness :
  let check := is_incoming_duplicate (example_scan 0) example_tuple_hash 1%nat true in
  snd (check (init chain_store)) = Returns false
  /\ snd (check (fst (check (init chain_store)))) = Returns true.
Proof.
  cbv zeta.
  destruct (is_incoming_duplicate_check_and_add (example_scan 0)
              example_tuple_hash 1%nat 1%nat true true (init chain_store)
              example_sub example_sub eq_refl eq_refl eq_refl)
    as (_ & Hsecond & _).
  split; [reflexivity|exact Hsecond].
Defined.

Lemma is_outgoing_duplicate_check_and_add_witness :
  let st1 := fst (is_outgoing_duplicate 1%nat true (init twin_store)) in
  snd (is_outgoing_duplicate 1%nat true (init twin_store)) = Returns false
  /\ snd (is_outgoing_duplicate 2%nat false st1) = Returns true.
Proof.
  cbv zeta.
  destruct (is_outgoing_duplicate_check_and_add 1%nat 2%nat true false
              (init twin_store) _ _ eq_refl eq_refl eq_refl)
    as (Hfirst & Hsecond).
  split; [by rewrite Hfirst|exact Hsecond].
Defined.

(** ** The precheck, repeated *)

Lemma elem_of_added (x : Z) (t : gset Z) : x ∈ {[x]} ∪ t.
Proof. apply elem_of_union_l, elem_of_singleton_2. reflexivity. Qed.

Lemma added_again (x : Z) (t : gset Z) : x ∈ t -> {[x]} ∪ t = t.
Proof.
  intros Hin. apply set_eq. intros y. rewrite elem_of_union, elem_of_singleton.
  split; [intros [->|]; assumption|by right].
Qed.

Lemma with_incoming_id st t :
  t = incoming_dup_tracker st -> with_incoming t st = st.
Proof. intros ->. by destruct st. Qed.

(** X3: running the precheck a second time on the same event.  The event
    is then accepted exactly when it is no dummy, differs from its source,
    and is graph-important or comes from a producer that does not suppress
    duplicates; so an ordinary event is accepted once and rejected from then
    on.  The second run leaves the state of the first, and a rejecting run
    leaves the state as it found it. *)
Theorem precheck_rejects_what_it_accepted scan th e st ev s sv :
  events st !! e = Some ev ->
  source ev = Some s ->
  events st !! s = Some sv ->
  let once := _event_precheck scan th e st in
  let twice := _event_precheck scan th e (fst once) in
  snd twice =
    Returns (negb (_dummy ev || (hash ev =? hash sv)
                   || (suppress_dupes_of scan ev && negb (_graph_important ev))))
  /\ fst twice = fst once
  /\ (snd once = Returns false -> fst once = st).
Proof.
  intros He Hs Hsv once twice. subst once twice.
  rewrite (_event_precheck_eq scan th e st ev s sv He Hs Hsv). simpl.
  set (fp := incoming_hash scan th ev).
  set (bypass := _dummy ev || (hash ev =? hash sv) || _graph_important ev).
  assert (events (if bypass then st
                  else with_incoming ({[fp]} ∪ incoming_dup_tracker st) st) !! e
          = Some ev) as He1 by (by destruct bypass).
  assert (events (if bypass then st
                  else with_incoming ({[fp]} ∪ incoming_dup_tracker st) st) !! s
          = Some sv) as Hs1 by (by destruct bypass).
  rewrite (_event_precheck_eq scan th e _ ev s sv He1 Hs Hs1). simpl.
  fold fp. fold bypass.
  split; [|split].
  - f_equal. subst bypass.
    destruct (_dummy ev), (hash ev =? hash sv), (_graph_important ev),
      (suppress_dupes_of scan ev); simpl;
      rewrite ?andb_false_r, ?andb_true_r; try reflexivity.
    all: rewrite bool_decide_eq_true_2 by apply elem_of_added; reflexivity.
  - destruct bypass; [reflexivity|]. simpl.
    apply with_incoming_id. simpl.
    apply added_again, elem_of_added.
  - intros Hno. destruct bypass eqn:Hb; [reflexivity|].
    apply with_incoming_id. subst bypass.
    destruct (_dummy ev), (hash ev =? hash sv), (_graph_important ev);
      try discriminate Hb. simpl in Hno.
    rewrite andb_true_r in Hno.
    destruct (suppress_dupes_of scan ev); [|discriminate]. simpl in Hno.
    destruct (bool_decide (fp ∈ incoming_dup_tracker st)) eqn:Hin;
      [|discriminate].
    apply bool_decide_eq_true_1 in Hin. by apply added_again.
Qed.

Lemma precheck_rejects_what_it_accepted_witness :
  let check := _event_precheck (example_scan 0) example_tuple_hash in
  snd (check 1%nat (init chain_store)) = Returns true
  /\ snd (check 1%nat (fst (check 1%nat (init chain_store)))) = Returns false
  /\ snd (check 2%nat (fst (check 2%nat (init chain_store)))) = Returns true.
Proof.
  cbv zeta.
  destruct (precheck_rejects_what_it_accepted (example_scan 0)
              example_tuple_hash 1%nat (init chain_store)
              example_sub 0%nat example_root eq_refl eq_refl eq_refl)
    as (Hsub & _).
  destruct (precheck_rejects_what_it_accepted (example_scan 0)
              example_tuple_hash 2%nat (init chain_store)
              example_leaf 1%nat example_sub eq_refl eq_refl eq_refl)
    as (Hleaf & _).
  split; [reflexivity|]. split; [exact Hsub|exact Hleaf].
Defined.

(** ** The public entry point [emit_event] *)

Lemma _acatch_of_returning m st :
  snd (m st) = Returns tt -> _acatch m st = m st.
Proof. unfold _acatch. destruct (m st) as [st' [[]|x]]; [done|discriminate]. Qed.

Lemma emit_event_eq scan th e kwargs st ev s sv :
  events st !! e = Some ev ->
  source ev = Some s ->
  events st !! s = Some sv ->
  let checked := _event_precheck scan th e st in
  let callbacks_requested :=
    is_not_None (abort_if kwargs) || is_not_None (on_success_callback kwargs) in
  emit_event scan th e kwargs st =
    match snd checked with
    | Returns true =>
        if (quick kwargs || quick_emit ev) && negb callbacks_requested
        then distribute_event scan e (fst checked)
        else (fst (_emit_event scan e kwargs (fst checked)), Returns tt)
    | _ => (fst checked, Returns tt)
    end.
Proof.
  intros He Hs Hsv. cbv zeta. unfold emit_event.
  erewrite bind_get_event by eassumption.
  pose proof (_event_precheck_eq scan th e st ev s sv He Hs Hsv) as Heq.
  cbv zeta in Heq. unfold bind at 1. rewrite Heq. simpl.
  destruct (negb (_dummy ev || (hash ev =? hash sv) || _)); simpl;
    [|reflexivity].
  destruct ((quick kwargs || quick_emit ev) && _).
  - apply _acatch_of_returning, distribute_event_returns.
  - unfold _acatch. by destruct (_emit_event _ _ _ _) as [st' [a|x]].
Qed.

(** X4: when the precheck rejects the event, [emit_event] returns without
    any effect: no attribute, queue, tracker or log entry differs, whatever
    the keyword arguments.  In particular the root event, being its own
    source, is never distributed. *)
Theorem emit_event_rejected_event_leaves_no_trace scan th e kwargs st ev s sv :
  events st !! e = Some ev ->
  source ev = Some s ->
  events st !! s = Some sv ->
  snd (_event_precheck scan th e st) = Returns false ->
  emit_event scan th e kwargs st = (st, Returns tt).
Proof.
  intros He Hs Hsv Hno.
  pose proof (emit_event_eq scan th e kwargs st ev s sv He Hs Hsv) as Heq.
  cbv zeta in Heq. rewrite Heq, Hno. f_equal.
  pose proof (_event_precheck_eq scan th e st ev s sv He Hs Hsv) as Hpre.
  cbv zeta in Hpre. rewrite Hpre in Hno |- *. simpl in *.
  set (fp := incoming_hash scan th ev) in *.
  destruct (_dummy ev), (hash ev =? hash sv), (_graph_important ev);
    simpl in *; try reflexivity; try discriminate.
  rewrite andb_true_r in Hno.
  destruct (suppress_dupes_of scan ev); [|discriminate]. simpl in Hno.
  destruct (bool_decide (fp ∈ incoming_dup_tracker st)) eqn:Hin;
    [|discriminate].
  apply bool_decide_eq_true_1 in Hin.
  apply with_incoming_id. by apply added_again.
Qed.

Lemma emit_event_rejected_event_leaves_no_trace_witness :
  emit_event (example_scan 0) example_tuple_hash 0%nat no_kwargs
    (init chain_store) = (init chain_store, Returns tt).
Proof.
  apply (emit_event_rejected_event_leaves_no_trace (example_scan 0)
           example_tuple_hash 0%nat no_kwargs (init chain_store)
           example_root 0%nat example_root eq_refl eq_refl eq_refl eq_refl).
Defined.

(** ** Failures of callbacks stay inside [emit_event] *)

(** X23: for an event that, like its source, is an event of the store,
    [emit_event] returns normally whatever the keyword arguments: an
    exception raised by [abort_if] or by [on_success_callback], of any kind,
    never reaches the caller. *)
Theorem emit_event_absorbs_every_failure scan th e kwargs st ev s sv :
  events st !! e = Some ev ->
  source ev = Some s ->
  events st !! s = Some sv ->
  snd (emit_event scan th e kwargs st) = Returns tt.
Proof.
  intros He Hs Hsv.
  pose proof (emit_event_eq scan th e kwargs st ev s sv He Hs Hsv) as Heq.
  cbv zeta in Heq. rewrite Heq.
  destruct (snd (_event_precheck scan th e st)) as [[]|x]; try reflexivity.
  destruct (_ && _); [apply distribute_event_returns|reflexivity].
Qed.

Lemma emit_event_absorbs_every_failure_witness :
  snd (emit_event (example_scan 5) example_tuple_hash 2%nat
         (abort_kwargs failing_callback) (init chain_store)) = Returns tt.
Proof.
  apply (emit_event_absorbs_every_failure (example_scan 5) example_tuple_hash
           2%nat (abort_kwargs failing_callback) (init chain_store)
           example_leaf 1%nat example_sub eq_refl eq_refl eq_refl).
Defined.

Lemma _emit_event_blacklisted scan e kwargs st ev :
  events st !! e = Some ev ->
  blacklisted scan ev || bool_decide ("blacklisted" ∈ tags ev) = true ->
  _emit_event scan e kwargs st = (st, Returns tt).
Proof.
  intros He Hbl. unfold _emit_event, except_ValidationError.
  erewrite bind_get_event by eassumption. by rewrite Hbl.
Qed.

(** X5: the quick path.  When [quick] is passed or the event has
    [quick_emit], no callback is requested and the precheck accepts,
    [emit_event] is the precheck followed by [distribute_event]: neither the
    blacklist nor the whitelist is consulted, so a blacklisted event is
    distributed. *)
Theorem quick_emit_skips_blacklist_and_callbacks scan th e kwargs st ev s sv :
  events st !! e = Some ev ->
  source ev = Some s ->
  events st !! s = Some sv ->
  snd (_event_precheck scan th e st) = Returns true ->
  abort_if kwargs = Missing ->
  on_success_callback kwargs = Missing ->
  quick kwargs || quick_emit ev = true ->
  emit_event scan th e kwargs st =
    distribute_event scan e (exec (_event_precheck scan th e) st).
Proof.
  intros He Hs Hsv Hok Habort Hsuccess Hquick. unfold exec.
  pose proof (emit_event_eq scan th e kwargs st ev s sv He Hs Hsv) as Heq.
  cbv zeta in Heq. rewrite Heq, Hok, Habort, Hsuccess, Hquick. reflexivity.
Qed.

Lemma quick_emit_skips_blacklist_and_callbacks_witness :
  blacklisted blacklisting_scan example_leaf = true
  /\ module_inbox
       (exec (emit_event blacklisting_scan example_tuple_hash 2%nat quick_kwargs)
          (init chain_store)) = [(7%nat, 2%nat)].
Proof.
  split; [reflexivity|]. unfold exec.
  rewrite (quick_emit_skips_blacklist_and_callbacks blacklisting_scan
             example_tuple_hash 2%nat quick_kwargs (init chain_store)
             example_leaf 1%nat example_sub
             eq_refl eq_refl eq_refl eq_refl eq_refl eq_refl eq_refl).
  vm_compute. reflexivity.
Defined.

(** X6: on the slow path (quick emission not asked for, or a callback
    requested) an accepted event that the blacklist matches, or that carries
    the tag [blacklisted], is dropped right after the precheck: no callback
    runs and nothing is distributed. *)
Theorem blacklisted_event_is_dropped_on_the_slow_path
    scan th e kwargs st ev s sv :
  events st !! e = Some ev ->
  source ev = Some s ->
  events st !! s = Some sv ->
  snd (_event_precheck scan th e st) = Returns true ->
  (quick kwargs || quick_emit ev)
  && negb (is_not_None (abort_if kwargs)
           || is_not_None (on_success_callback kwargs)) = false ->
  blacklisted scan ev || bool_decide ("blacklisted" ∈ tags ev) = true ->
  emit_event scan th e kwargs st =
    (exec (_event_precheck scan th e) st, Returns tt).
Proof.
  intros He Hs Hsv Hok Hslow Hbl. unfold exec.
  pose proof (emit_event_eq scan th e kwargs st ev s sv He Hs Hsv) as Heq.
  cbv zeta in Heq. rewrite Heq, Hok, Hslow.
  assert (events (fst (_event_precheck scan th e st)) !! e = Some ev) as He1.
  { pose proof (_event_precheck_eq scan th e st ev s sv He Hs Hsv) as Hpre.
    cbv zeta in Hpre. rewrite Hpre. simpl. by destruct (_ || _ || _). }
  by rewrite (_emit_event_blacklisted scan e kwargs _ ev He1 Hbl).
Qed.

Lemma blacklisted_event_is_dropped_on_the_slow_path_witness :
  let kwargs := abort_kwargs failing_callback in
  fst (emit_event blacklisting_scan example_tuple_hash 2%nat kwargs
         (init chain_store))
  = exec (_event_precheck blacklisting_scan example_tuple_hash 2%nat)
      (init chain_store).
Proof.
  cbv zeta.
  rewrite (blacklisted_event_is_dropped_on_the_slow_path blacklisting_scan
             example_tuple_hash 2%nat (abort_kwargs failing_callback)
             (init chain_store) example_leaf 1%nat example_sub
             eq_refl eq_refl eq_refl eq_refl eq_refl eq_refl).
  reflexivity.
Defined.

(** ** The slow emit path without a veto *)

Lemma _emit_event_without_veto scan e kwargs st ev :
  events st !! e = Some ev ->
  blacklisted scan ev || bool_decide ("blacklisted" ∈ tags ev) = false ->
  is_callable (abort_if kwargs) = false ->
  _emit_event scan e kwargs st =
    (match on_success_callback kwargs with
     | Callable g => _acatch (let* _ := execute_sync_or_async g e in ret tt)
     | _ => ret tt
     end >> distribute_event scan e)
      (if host_truthy ev && whitelisted scan ev
       then with_events (<[e := set_scope_distance 0 ev]> (events st)) st
       else st).
Proof.
  intros He Hbl Hveto.
  unfold _emit_event.
  rewrite except_ValidationError_returns.
  - erewrite bind_get_event by eassumption. rewrite Hbl.
    destruct (host_truthy ev && whitelisted scan ev).
    + rewrite bind_when_true. erewrite bind_setattr by eassumption.
      destruct (abort_if kwargs); try discriminate; by rewrite bind_ret.
    + rewrite bind_when_false.
      destruct (abort_if kwargs); try discriminate; by rewrite bind_ret.
  - erewrite bind_get_event by eassumption. rewrite Hbl.
    assert (forall st0,
              snd ((match on_success_callback kwargs with
                    | Callable g =>
                        _acatch (let* _ := execute_sync_or_async g e in ret tt)
                    | _ => ret tt
                    end >> distribute_event scan e) st0) = Returns tt)
      as Hproceed.
    { intros st0.
      destruct (on_success_callback kwargs) as [| |g];
        [apply distribute_event_returns..|].
      unfold bind at 1, _acatch.
      match goal with
      | |- snd (match (match ?r with _ => _ end) with _ => _ end) = _ =>
          destruct r as [st' [a|x]]
      end; apply distribute_event_returns. }
    destruct (host_truthy ev && whitelisted scan ev).
    + rewrite bind_when_true. erewrite bind_setattr by eassumption.
      destruct (abort_if kwargs); try discriminate; rewrite bind_ret;
        apply Hproceed.
    + rewrite bind_when_false.
      destruct (abort_if kwargs); try discriminate; rewrite bind_ret;
        apply Hproceed.
Qed.

(** X7: on the slow path without callable callbacks, an event with a host
    that the whitelist matches is distributed at scope distance 0; with a
    non-negative report distance it is therefore not made internal, and its
    record after the emission is the original one with scope distance 0
    (for an event that is not its own source). *)
Theorem whitelisted_host_is_distributed_in_scope scan e kwargs st ev :
  events st !! e = Some ev ->
  blacklisted scan ev || bool_decide ("blacklisted" ∈ tags ev) = false ->
  is_callable (abort_if kwargs) = false ->
  is_callable (on_success_callback kwargs) = false ->
  host_truthy ev && whitelisted scan ev = true ->
  _emit_event scan e kwargs st =
    distribute_event scan e
      (with_events (<[e := set_scope_distance 0 ev]> (events st)) st)
  /\ (source ev <> Some e -> 0 <= scope_report_distance scan ->
      events (exec (_emit_event scan e kwargs) st) !! e
      = Some (set_scope_distance 0 ev)).
Proof.
  intros He Hbl Hveto Hsuccess Hwl.
  assert (_emit_event scan e kwargs st =
          distribute_event scan e
            (with_events (<[e := set_scope_distance 0 ev]> (events st)) st))
    as Heq.
  { rewrite (_emit_event_without_veto scan e kwargs st ev He Hbl Hveto), Hwl.
    destruct (on_success_callback kwargs); try discriminate;
      by rewrite bind_ret. }
  split; [exact Heq|]. intros Hsrc Hrd. unfold exec. rewrite Heq.
  pose proof (distribute_event_event_record scan e
                (with_events (<[e := set_scope_distance 0 ev]> (events st)) st)
                (set_scope_distance 0 ev)) as Hrec.
  unfold exec in Hrec. rewrite Hrec; [|apply lookup_insert_eq|exact Hsrc].
  simpl. apply Z.leb_le in Hrd. rewrite Hrd, orb_true_r. reflexivity.
Qed.

Lemma whitelisted_host_is_distributed_in_scope_witness :
  scope_distance example_far_host = 4
  /\ events (exec (_emit_event whitelisting_scan 1%nat no_kwargs)
               (init host_store)) !! 1%nat
     = Some (set_scope_distance 0 example_far_host).
Proof.
  split; [reflexivity|].
  destruct (whitelisted_host_is_distributed_in_scope whitelisting_scan 1%nat
              no_kwargs (init host_store) example_far_host
              eq_refl eq_refl eq_refl eq_refl eq_refl) as (_ & Hrecord).
  apply Hrecord; [discriminate|reflexivity].
Defined.

(** X8: the success callback runs once, after the scope shepherding and
    before the distribution, which sees the event store as the callback
    left it; what the callback returns is ignored, and when it raises the
    event is distributed all the same. *)
Theorem success_callback_runs_before_distribution scan e kwargs g st ev :
  events st !! e = Some ev ->
  blacklisted scan ev || bool_decide ("blacklisted" ∈ tags ev) = false ->
  is_callable (abort_if kwargs) = false ->
  on_success_callback kwargs = Callable g ->
  let st1 :=
    if host_truthy ev && whitelisted scan ev
    then with_events (<[e := set_scope_distance 0 ev]> (events st)) st
    else st in
  _emit_event scan e kwargs st =
    distribute_event scan e (with_events (fst (call g e (events st1))) st1).
Proof.
  intros He Hbl Hveto Hsuccess st1.
  rewrite (_emit_event_without_veto scan e kwargs st ev He Hbl Hveto), Hsuccess.
  fold st1. unfold bind at 1, _acatch, bind, execute_sync_or_async.
  destruct (is_coroutine g); by destruct (call g e (events st1)) as [h [v|x]].
Qed.

Lemma success_callback_runs_before_distribution_witness :
  module_inbox
    (exec (_emit_event (example_scan 5) 2%nat (success_kwargs failing_callback))
       (init chain_store)) = [(7%nat, 2%nat)].
Proof.
  unfold exec.
  rewrite (success_callback_runs_before_distribution (example_scan 5) 2%nat
             (success_kwargs failing_callback) failing_callback
             (init chain_store) example_leaf eq_refl eq_refl eq_refl eq_refl).
  vm_compute. reflexivity.
Defined.

(** ** Failures absorbed inside the distributor *)

(** X9: an event whose [source] is [None] is delivered to no module: the
    attribute error of [source.internal] is absorbed by [_acatch], and
    [distribute_event] returns having at most made the event internal. *)
Theorem event_without_source_reaches_no_module scan e st ev :
  events st !! e = Some ev ->
  source ev = None ->
  distribute_event scan e st =
    (if negb (always_emit ev
              || (scope_distance ev <=? scope_report_distance scan))
     then with_events (<[e := set_internal true ev]> (events st)) st
     else st,
     Returns tt).
Proof.
  intros He Hs. unfold distribute_event.
  destruct (negb _) eqn:Hbeyond.
  - eapply _acatch_raises with (x := AttributeError).
    erewrite bind_get_event by eassumption. rewrite Hbeyond.
    rewrite bind_when_true. erewrite bind_setattr by eassumption.
    erewrite bind_get_event by solve_lookup. simpl. rewrite Hs.
    reflexivity.
  - eapply _acatch_raises with (x := AttributeError).
    erewrite bind_get_event by eassumption. rewrite Hbeyond.
    rewrite bind_when_false.
    erewrite bind_get_event by solve_lookup. rewrite Hs. reflexivity.
Qed.

Lemma event_without_source_reaches_no_module_witness :
  distribute_event (example_scan 0) 1%nat (init orphan_store)
  = (init orphan_store, Returns tt).
Proof.
  apply (event_without_source_reaches_no_module (example_scan 0) 1%nat
           (init orphan_store) _ eq_refl eq_refl).
Defined.

Lemma queue_event_without_source scan s kwargs st sv :
  events st !! s = Some sv ->
  source sv = None ->
  queue_event scan (Some s) kwargs st =
    (if (0 <? scope_distance sv)
        && negb (whitelisted scan sv && negb (blacklisted scan sv))
     then with_events
            (<[s := set_module_priority
                      (module_priority sv + scope_distance sv) sv]> (events st))
            st
     else st,
     Raises AttributeError).
Proof.
  intros Hsv Hg. unfold queue_event.
  erewrite bind_get_event by eassumption.
  destruct (0 <? scope_distance sv); cbn [andb].
  - unfold when at 1. destruct (negb _).
    + rewrite bind_when_true. erewrite bind_setattr by eassumption.
      erewrite bind_get_event by solve_lookup.
      cbn [source set_module_priority]. by rewrite Hg.
    + rewrite bind_when_false.
      erewrite bind_get_event by solve_lookup. by rewrite Hg.
  - rewrite bind_when_false.
    erewrite bind_get_event by solve_lookup. by rewrite Hg.
Qed.

Lemma bind_raises {A B} (m : M A) (k : A -> M B) st st' x :
  m st = (st', Raises x) -> bind m k st = (st', Raises x).
Proof. intros H. unfold bind. by rewrite H. Qed.

Lemma distribute_event_failed_requeue_eq scan e st ev s sv :
  events st !! e = Some ev ->
  source ev = Some s ->
  s <> e ->
  events st !! s = Some sv ->
  source sv = None ->
  let rd := scope_report_distance scan in
  let ev1 := if negb (always_emit ev || (scope_distance ev <=? rd))
             then set_internal true ev else ev in
  internal sv && (negb (internal ev1) || _graph_important ev1) = true ->
  _graph_important sv = false ->
  let marked :=
    set_graph_important true
      (if scope_distance sv <=? rd then set_internal false sv else sv) in
  let sv' :=
    if (0 <? scope_distance sv)
       && negb (whitelisted scan marked && negb (blacklisted scan marked))
    then set_module_priority (module_priority sv + scope_distance sv) marked
    else marked in
  distribute_event scan e st =
    (with_events (<[s := sv']> (<[e := ev1]> (events st))) st, Returns tt).
Proof.
  intros He Hs Hne Hsv Hg rd ev1 Hpromote Hgi marked sv'.
  subst sv' marked ev1. unfold distribute_event.
  apply _acatch_raises with (x := AttributeError).
  rewrite (run_as_bind (bind _ _)). fold rd.
  repeat mstep.
  all: simpl in *; rewrite ?Hgi in *; try discriminate; try congruence.
  all: try (erewrite (bind_raises (queue_event _ _ _));
            [|erewrite queue_event_without_source;
              [reflexivity|solve_lookup|simpl; exact Hg]]).
  all: simpl.
  all: repeat match goal with
              | |- context [if ?b then _ else _] => destruct b
              end.
  all: unfold with_events; simpl; repeat rewrite insert_insert_eq.
  all: rewrite ?(insert_id (events st) e ev He); reflexivity.
Qed.

(** X10: when the ancestor to re-queue has no source of its own,
    [queue_event] raises inside [distribute_event]; the failure is absorbed,
    and the event that triggered the promotion is delivered to no module and
    not absorbed by the word cloud, while the ancestor stays marked
    graph-important with its [internal] flag already updated, and is not
    queued. *)
Theorem failed_requeue_cancels_the_fan_out scan e st ev s sv :
  events st !! e = Some ev ->
  source ev = Some s ->
  s <> e ->
  events st !! s = Some sv ->
  source sv = None ->
  let rd := scope_report_distance scan in
  let ev1 := if negb (always_emit ev || (scope_distance ev <=? rd))
             then set_internal true ev else ev in
  internal sv && (negb (internal ev1) || _graph_important ev1) = true ->
  _graph_important sv = false ->
  let st' := exec (distribute_event scan e) st in
  snd (distribute_event scan e st) = Returns tt
  /\ module_inbox st' = module_inbox st
  /\ incoming_event_queue st' = incoming_event_queue st
  /\ word_cloud st' = word_cloud st
  /\ exists sv',
       events st' !! s = Some sv'
       /\ _graph_important sv' = true
       /\ internal sv' = negb (scope_distance sv <=? rd).
Proof.
  intros He Hs Hne Hsv Hg rd ev1 Hpromote Hgi st'.
  pose proof (distribute_event_failed_requeue_eq scan e st ev s sv
                He Hs Hne Hsv Hg Hpromote Hgi) as Heq.
  cbv zeta in Heq. subst st'. unfold exec. rewrite Heq. simpl.
  repeat split. eexists. split; [apply lookup_insert_eq|].
  assert (internal sv = true) as Hi by (by destruct (internal sv)).
  fold rd.
  destruct ((0 <? scope_distance sv) && _), (scope_distance sv <=? rd);
    simpl; rewrite ?Hi; done.
Qed.

Lemma failed_requeue_cancels_the_fan_out_witness :
  module_inbox (exec (distribute_event (example_scan 5) 2%nat)
                  (init broken_chain_store)) = []
  /\ module_inbox (exec (distribute_event (example_scan 5) 2%nat)
                     (init chain_store)) = [(7%nat, 2%nat)].
Proof.
  split; [|vm_compute; reflexivity].
  destruct (failed_requeue_cancels_the_fan_out (example_scan 5) 2%nat
              (init broken_chain_store)
              example_leaf 1%nat (set_source None example_sub)
              eq_refl eq_refl ltac:(discriminate) eq_refl eq_refl
              eq_refl eq_refl) as (_ & Hinbox & _).
  exact Hinbox.
Defined.

(** ** What the dispatcher never takes off the ingress queue *)

#[export] Instance keeps_queued_preorder : PreOrder keeps_queued.
Proof.
  split.
  - intros st. unfold keeps_queued. reflexivity.
  - intros st1 st2 st3 H12 H23. unfold keeps_queued in *.
    by etransitivity.
Qed.

Ltac queued_leaf :=
  unfold keeps_queued; simpl;
  first [reflexivity | by apply submseteq_inserts_r].

Lemma queue_event_keeps_queued scan event kwargs :
  preserves keeps_queued (queue_event scan event kwargs).
Proof. unfold queue_event. preserving queued_leaf fail. Qed.

Lemma distribute_event_keeps_queued scan e :
  preserves keeps_queued (distribute_event scan e).
Proof.
  unfold distribute_event.
  preserving queued_leaf ltac:(apply queue_event_keeps_queued).
Qed.

Lemma _event_precheck_keeps_queued scan th e :
  preserves keeps_queued (_event_precheck scan th e).
Proof.
  unfold _event_precheck, is_incoming_duplicate.
  preserving queued_leaf fail.
Qed.

Lemma _emit_event_keeps_queued scan e kwargs :
  preserves keeps_queued (_emit_event scan e kwargs).
Proof.
  unfold _emit_event.
  preserving queued_leaf ltac:(apply distribute_event_keeps_queued).
Qed.

Lemma emit_event_keeps_queued scan th e kwargs :
  preserves keeps_queued (emit_event scan th e kwargs).
Proof.
  unfold emit_event.
  preserving queued_leaf
    ltac:(first [ apply distribute_event_keeps_queued
                | apply _emit_event_keeps_queued
                | apply _event_precheck_keeps_queued ]).
Qed.

Lemma init_events_keeps_queued scan :
  preserves keeps_queued (init_events scan).
Proof.
  unfold init_events, seed_event.
  preserving queued_leaf ltac:(apply queue_event_keeps_queued).
Qed.

Lemma run_operation_keeps_queued scan th op st :
  keeps_queued st (run_operation scan th op st).
Proof.
  destruct op; unfold run_operation, exec.
  - revert st.
    change (preserves keeps_queued (is_incoming_duplicate scan th e add)).
    unfold is_incoming_duplicate. preserving queued_leaf fail.
  - revert st. change (preserves keeps_queued (is_outgoing_duplicate e add)).
    preserving queued_leaf fail.
  - apply _event_precheck_keeps_queued.
  - apply queue_event_keeps_queued.
  - apply distribute_event_keeps_queued.
  - apply _emit_event_keeps_queued.
  - apply emit_event_keeps_queued.
  - apply init_events_keeps_queued.
Qed.

(** X11: no operation of the dispatcher, in any sequence, takes an item off
    the shared ingress queue: every item that was queued is still queued
    afterwards, as many times as before, whatever position the queue gives
    to the items put since. *)
Theorem dispatcher_operations_dequeue_nothing scan th ops st :
  incoming_event_queue st
    ⊆+ incoming_event_queue (run_operations scan th ops st).
Proof.
  change (keeps_queued st (run_operations scan th ops st)).
  revert st. unfold run_operations.
  induction ops as [|op ops IH]; intros st; simpl; [reflexivity|].
  etransitivity; [apply (run_operation_keeps_queued scan th op st)|apply IH].
Qed.

(** ** Sorting by priority *)

Section Sorting.

Context {A : Type} (key : A -> Z).

Let ordered (x y : A) : Prop := key x <= key y.

Lemma insert_by_perm x l : insert_by key x l ≡ₚ x :: l.
Proof.
  induction l as [|y l IH]; simpl; [reflexivity|].
  destruct (key y <=? key x); [|reflexivity].
  rewrite IH. apply perm_swap.
Qed.

Lemma insert_by_sorted x l :
  StronglySorted ordered l -> StronglySorted ordered (insert_by key x l).
Proof.
  induction 1 as [|y l Hsorted IH Hall]; simpl.
  - repeat constructor.
  - destruct (key y <=? key x) eqn:Hle.
    + constructor; [exact IH|]. rewrite insert_by_perm.
      constructor; [by apply Z.leb_le|exact Hall].
    + apply Z.leb_gt in Hle. constructor; [by constructor|].
      constructor; [unfold ordered; lia|].
      eapply Forall_impl; [exact Hall|]. unfold ordered. intros z Hz. simpl in *. lia.
Qed.

Lemma filter_key_none k l :
  Forall (fun z => key z <> k) l -> filter (fun z => key z = k) l = [].
Proof.
  induction 1 as [|z l Hz Hall IH]; [reflexivity|].
  by rewrite filter_cons_False.
Qed.

Lemma insert_by_filter x l k :
  StronglySorted ordered l ->
  filter (fun y => key y = k) (insert_by key x l) =
    filter (fun y => key y = k) l ++ filter (fun y => key y = k) [x].
Proof.
  induction 1 as [|y l Hsorted IH Hall]; simpl; [reflexivity|].
  destruct (key y <=? key x) eqn:Hle.
  - rewrite !filter_cons, IH. by destruct (decide (key y = k)).
  - apply Z.leb_gt in Hle. rewrite (filter_cons _ x).
    destruct (decide (key x = k)) as [Hk|Hk].
    + rewrite filter_key_none; [by rewrite filter_cons_True|].
      constructor; [lia|].
      eapply Forall_impl; [exact Hall|]. unfold ordered. simpl. intros z Hz. lia.
    + by rewrite (filter_cons_False _ x []), app_nil_r.
Qed.

Lemma sorting_from acc l :
  StronglySorted ordered acc ->
  let sorted := fold_left (fun acc x => insert_by key x acc) l acc in
  sorted ≡ₚ acc ++ l
  /\ StronglySorted ordered sorted
  /\ forall k, filter (fun y => key y = k) sorted
               = filter (fun y => key y = k) (acc ++ l).
Proof.
  revert acc. induction l as [|x l IH]; intros acc Hacc; simpl.
  - rewrite app_nil_r. done.
  - destruct (IH (insert_by key x acc) (insert_by_sorted x acc Hacc))
      as (Hperm & Hsorted & Hstable).
    split; [|split].
    + rewrite Hperm, insert_by_perm. simpl. apply Permutation_middle.
    + exact Hsorted.
    + intros k. rewrite Hstable, !filter_app, insert_by_filter by done.
      rewrite (filter_cons _ x l), (filter_cons _ x []), filter_nil.
      destruct (decide (key x = k)); simpl; by rewrite <- ?app_assoc.
Qed.

Lemma sorted_by_is_a_stable_sort (l : list A) :
  sorted_by key l ≡ₚ l
  /\ StronglySorted (fun x y => key x <= key y) (sorted_by key l)
  /\ forall k, filter (fun y => key y = k) (sorted_by key l)
               = filter (fun y => key y = k) l.
Proof.
  apply (sorting_from [] l). constructor.
Qed.

End Sorting.

Lemma StronglySorted_filter {A} (R : relation A) (P : A -> Prop)
    `{!forall x, Decision (P x)} l :
  StronglySorted R l -> StronglySorted R (filter P l).
Proof.
  induction 1 as [|x l Hsorted IH Hall]; [constructor|].
  rewrite filter_cons. destruct (decide (P x)); [|exact IH].
  constructor; [exact IH|].
  apply Forall_forall. intros y Hy. apply list_elem_of_filter in Hy as [_ Hy].
  by eapply Forall_forall in Hall.
Qed.

Lemma modules_by_priority_perm scan :
  modules_by_priority scan ≡ₚ modules_values scan.
Proof.
  unfold modules_by_priority.
  apply (sorted_by_is_a_stable_sort (fun r => priority (module_object scan r))).
Qed.

Lemma modules_by_priority_sorted scan :
  StronglySorted
    (fun r r' => priority (module_object scan r)
                 <= priority (module_object scan r'))
    (modules_by_priority scan).
Proof.
  unfold modules_by_priority.
  apply (sorted_by_is_a_stable_sort (fun r => priority (module_object scan r))).
Qed.

Lemma elem_of_hook_modules scan r :
  r ∈ hook_modules scan <->
    r ∈ modules_values scan /\ _hook (module_object scan r) = true.
Proof.
  unfold hook_modules.
  rewrite list_elem_of_filter, modules_by_priority_perm. tauto.
Qed.

Lemma elem_of_non_hook_modules scan r :
  r ∈ non_hook_modules scan <->
    r ∈ modules_values scan /\ _hook (module_object scan r) = false.
Proof.
  unfold non_hook_modules.
  rewrite list_elem_of_filter, modules_by_priority_perm. tauto.
Qed.

(** X12: [modules_by_priority] lists exactly the modules of the scan, in
    non-decreasing priority, modules of equal priority in the order of
    [scan.modules]. *)
Theorem modules_by_priority_is_a_stable_sort scan :
  let rank r := priority (module_object scan r) in
  modules_by_priority scan ≡ₚ modules_values scan
  /\ StronglySorted (fun r r' => rank r <= rank r') (modules_by_priority scan)
  /\ forall p, filter (fun r => rank r = p) (modules_by_priority scan)
               = filter (fun r => rank r = p) (modules_values scan).
Proof.
  intros rank. unfold modules_by_priority.
  apply (sorted_by_is_a_stable_sort rank).
Qed.

(** X13: [hook_modules] and [non_hook_modules] hold the hook modules and
    the other modules of the scan, and together all of them; the first hook
    module has the least priority value among the hooks and the last one the
    greatest. *)
Theorem hook_modules_by_priority scan :
  let rank r := priority (module_object scan r) in
  let is_hook r := _hook (module_object scan r) in
  (forall r, r ∈ hook_modules scan <-> r ∈ modules_values scan /\ is_hook r = true)
  /\ (forall r, r ∈ non_hook_modules scan <->
                r ∈ modules_values scan /\ is_hook r = false)
  /\ hook_modules scan ++ non_hook_modules scan ≡ₚ modules_values scan
  /\ (forall first,
        head (hook_modules scan) = Some first ->
        forall r, r ∈ modules_values scan -> is_hook r = true ->
                  rank first <= rank r)
  /\ (forall final,
        last (hook_modules scan) = Some final ->
        forall r, r ∈ modules_values scan -> is_hook r = true ->
                  rank r <= rank final).
Proof.
  intros rank is_hook.
  pose proof (modules_by_priority_sorted scan) as Hsorted.
  assert (StronglySorted (fun r r' => rank r <= rank r') (hook_modules scan))
    as Hhooks_sorted by (by apply StronglySorted_filter).
  split; [apply elem_of_hook_modules|].
  split; [apply elem_of_non_hook_modules|]. split; [|split].
  - rewrite <- (modules_by_priority_perm scan).
    unfold hook_modules, non_hook_modules.
    rewrite <- (filter_app_complement
                  (fun r => _hook (module_object scan r) = true)
                  (modules_by_priority scan)) at 3.
    f_equiv. erewrite list_filter_iff; [reflexivity|]. intros r. simpl.
    destruct (_hook (module_object scan r)); split; congruence.
  - intros first Hfirst r Hr Hh.
    apply head_Some in Hfirst as [rest Hrest].
    assert (r ∈ hook_modules scan) as Hin by (by apply elem_of_hook_modules).
    rewrite Hrest in Hin, Hhooks_sorted.
    apply StronglySorted_cons in Hhooks_sorted as [Hall _].
    apply elem_of_cons in Hin as [->|Hin]; [reflexivity|].
    by eapply Forall_forall in Hall.
  - intros final Hfinal r Hr Hh.
    apply last_Some in Hfinal as [rest Hrest].
    assert (r ∈ hook_modules scan) as Hin by (by apply elem_of_hook_modules).
    rewrite Hrest in Hin, Hhooks_sorted.
    apply elem_of_app in Hin as [Hin|Hin].
    + apply (StronglySorted_app_1_elem_of _ rest [final] r final
               Hhooks_sorted Hin).
      apply list_elem_of_singleton. reflexivity.
    + apply list_elem_of_singleton in Hin as ->. reflexivity.
Qed.

(** X14: [module_priority_weights] has one weight per queue of
    [incoming_queues], in the same order: 5 for the shared ingress queue and
    6 minus its priority for each module that is not a hook.  The module
    weights do not increase along the list, and all weights are between 1
    and 5 when all priorities are. *)
Theorem weights_match_the_queues scan :
  let rank r := priority (module_object scan r) in
  length (module_priority_weights scan) = length (incoming_queues scan)
  /\ zip (incoming_queues scan) (module_priority_weights scan)
     = (IncomingEventQueue, 5)
       :: map (fun r => (OutgoingEventQueue r, 6 - rank r))
            (non_hook_modules scan)
  /\ StronglySorted (fun w w' => w' <= w) (tail (module_priority_weights scan))
  /\ ((forall r, r ∈ modules_values scan -> 1 <= rank r <= 5) ->
      Forall (fun w => 1 <= w <= 5) (module_priority_weights scan)).
Proof.
  intros rank. unfold module_priority_weights, incoming_queues. simpl.
  split; [by rewrite !length_map|]. split; [|split].
  - f_equal. induction (non_hook_modules scan) as [|r l IH]; simpl;
      [reflexivity|by rewrite IH].
  - pose proof (modules_by_priority_sorted scan) as Hsorted.
    assert (StronglySorted (fun r r' => rank r <= rank r')
              (non_hook_modules scan)) as Hnon
      by (by apply StronglySorted_filter).
    induction Hnon as [|r l Hl IH Hall]; simpl; constructor; [exact IH|].
    apply Forall_map. eapply Forall_impl; [exact Hall|].
    intros r' Hr'. simpl in *. fold (rank r). fold (rank r'). lia.
  - intros Hrange. constructor; [lia|].
    apply Forall_map, Forall_forall. intros r Hr. simpl.
    apply elem_of_non_hook_modules in Hr as [Hr _].
    specialize (Hrange r Hr). fold (rank r). lia.
Qed.

Lemma hook_modules_by_priority_witness :
  hook_modules hooked_scan = [4%nat; 3%nat]
  /\ priority (module_object hooked_scan 4%nat)
     <= priority (module_object hooked_scan 3%nat).
Proof.
  split; [reflexivity|].
  destruct (hook_modules_by_priority hooked_scan) as (_ & _ & _ & Hfirst & _).
  apply (Hfirst 4%nat eq_refl 3%nat); [|reflexivity].
  apply list_elem_of_In. simpl. tauto.
Defined.

Lemma weights_match_the_queues_witness :
  module_priority_weights hooked_scan = [5; 5; 1]
  /\ incoming_queues hooked_scan
     = [IncomingEventQueue; OutgoingEventQueue 6%nat; OutgoingEventQueue 5%nat]
  /\ Forall (fun w => 1 <= w <= 5) (module_priority_weights hooked_scan).
Proof.
  split; [reflexivity|]. split; [reflexivity|].
  destruct (weights_match_the_queues hooked_scan) as (_ & _ & _ & Hrange).
  apply Hrange. intros r Hr. apply list_elem_of_In in Hr. simpl in Hr.
  destruct Hr as [<-|[<-|[<-|[<-|[]]]]]; simpl; lia.
Defined.

(** ** Seeding *)

Lemma seeded_idempotent scan ev : seeded scan (seeded scan ev) = seeded scan ev.
Proof.
  unfold seeded. destruct ev as [d h src m sd wd i t ho du gi ae qe mp sr].
  simpl. destruct src, m; reflexivity.
Qed.

Lemma seeded_attributes scan ev :
  _dummy (seeded scan ev) = false
  /\ scope_distance (seeded scan ev) = 0
  /\ web_spider_distance (seeded scan ev) = 0
  /\ scan_ref (seeded scan ev) = true
  /\ source (seeded scan ev) = Some (default (root_event scan) (source ev))
  /\ module (seeded scan ev)
     = Some (default (_make_dummy_module scan "TARGET" "TARGET") (module ev)).
Proof.
  unfold seeded. destruct ev as [d h src m sd wd i t ho du gi ae qe mp sr].
  simpl. destruct src, m; done.
Qed.

Lemma seed_event_prepares scan e st ev :
  events st !! e = Some ev ->
  seed_event scan e st
  = (match hook_modules scan with
     | first_hook_module :: _ => module_queue_event first_hook_module e
     | [] => queue_event scan (Some e) no_kwargs
     end)
      (with_events (<[e := seeded scan ev]> (events st)) st).
Proof.
  intros He. unfold seed_event.
  destruct ev as [d h src m sd wd i t ho du gi ae qe mp sr].
  destruct src, m.
  all: repeat mstep.
  all: try discriminate.
  all: match goal with
       | |- ?f ?a = ?g ?b => assert (a = b) as ->; [|reflexivity]
       end.
  all: unfold with_events, seeded; simpl; repeat rewrite insert_insert_eq.
  all: reflexivity.
Qed.

Lemma data_lengths_eq l st :
  (forall e, e ∈ l -> is_Some (events st !! e)) ->
  data_lengths l st
  = (st, Returns (map (fun e => (e, data_length (events st) e)) l)).
Proof.
  induction l as [|e l IH]; intros Hdom; simpl; [reflexivity|].
  destruct (Hdom e) as [ev He]; [apply elem_of_cons; by left|].
  erewrite bind_get_event by eassumption.
  unfold bind at 1. rewrite IH.
  - unfold ret, data_length. by rewrite He.
  - intros x Hx. apply Hdom, elem_of_cons. by right.
Qed.

Lemma seeding_order_eq (store : gmap nat Event) l :
  let sorted := map fst (sorted_by snd (map (fun e => (e, data_length store e)) l)) in
  sorted ≡ₚ l
  /\ StronglySorted (fun e e' => data_length store e <= data_length store e')
       sorted
  /\ forall n, filter (fun e => data_length store e = n) sorted
               = filter (fun e => data_length store e = n) l.
Proof.
  intros sorted. subst sorted.
  set (keyed := map (fun e => (e, data_length store e)) l).
  destruct (sorted_by_is_a_stable_sort (@snd nat Z) keyed)
    as (Hperm & Hsorted & Hstable).
  assert (forall k, k ⊆ keyed ->
            map fst k = map fst k
            /\ Forall (fun p => snd p = data_length store (fst p)) k) as Hkeys.
  { intros k Hk. split; [reflexivity|]. apply Forall_forall. intros p Hp.
    apply Hk in Hp. subst keyed. apply list_elem_of_fmap in Hp as (e & -> & _).
    reflexivity. }
  assert (Forall (fun p => snd p = data_length store (fst p))
            (sorted_by snd keyed)) as Hall.
  { apply Hkeys. intros p Hp. by rewrite Hperm in Hp. }
  assert (map fst keyed = l) as Hfst.
  { subst keyed. rewrite map_map. simpl. apply map_id. }
  split; [|split].
  - rewrite <- Hfst. by apply Permutation_map.
  - clear Hperm Hstable. revert Hall.
    induction Hsorted as [|p k Hk IH Hp]; intros Hall; simpl; constructor.
    + apply IH. by apply Forall_cons_1 in Hall as [_ ?].
    + apply Forall_map. apply Forall_cons_1 in Hall as [Hp0 Hk0].
      apply Forall_forall. intros q Hq.
      pose proof (proj1 (Forall_forall _ _) Hp q Hq) as Hle.
      pose proof (proj1 (Forall_forall _ _) Hk0 q Hq) as Hq0.
      simpl in *. lia.
  - intros n.
    assert (forall k,
              Forall (fun p => snd p = data_length store (fst p)) k ->
              filter (fun e => data_length store e = n) (map fst k)
              = map fst (filter (fun p => snd p = n) k)) as Hmap.
    { induction 1 as [|p k Hp Hk IH]; [reflexivity|]. simpl.
      rewrite !filter_cons, IH.
      destruct (decide (data_length store p.1 = n)),
        (decide (p.2 = n)); try reflexivity; congruence. }
    rewrite Hmap by exact Hall. rewrite Hstable, <- Hmap, Hfst; [reflexivity|].
    apply Hkeys. reflexivity.
Qed.

Lemma module_queue_event_eq first e st :
  module_queue_event first e st
  = (with_inbox (module_inbox st ++ [(first, e)]) st, Returns tt).
Proof. reflexivity. Qed.

Lemma seeding_into_first_hook scan first rest l st :
  hook_modules scan = first :: rest ->
  (forall e, e ∈ l -> is_Some (events st !! e)) ->
  exists st',
    for_each l (seed_event scan) st = (st', Returns tt)
    /\ module_inbox st' = module_inbox st ++ map (fun e => (first, e)) l
    /\ incoming_event_queue st' = incoming_event_queue st
    /\ _finished_init st' = _finished_init st
    /\ forall x,
         events st' !! x
         = (fun ev => if decide (x ∈ l) then seeded scan ev else ev)
             <$> events st !! x.
Proof.
  intros Hhooks. revert st. induction l as [|e l IH]; intros st Hdom.
  - exists st. simpl. rewrite app_nil_r. repeat split.
    intros x. destruct (events st !! x); [|reflexivity].
    cbn [fmap option_fmap option_map].
    destruct (decide (x ∈ [])) as [Hin|]; [|reflexivity].
    by apply elem_of_nil in Hin.
  - destruct (Hdom e) as [ev He]; [apply elem_of_cons; by left|].
    simpl. unfold bind at 1.
    rewrite (seed_event_prepares scan e st ev He), Hhooks,
      module_queue_event_eq.
    set (st1 := with_inbox _ _).
    destruct (IH st1) as (st' & Hrun & Hinbox & Hqueue & Hinit & Hevents).
    { intros x Hx. subst st1. simpl.
      destruct (decide (x = e)) as [->|Hne];
        [rewrite lookup_insert_eq; by eexists|].
      rewrite lookup_insert_ne by done. apply Hdom, elem_of_cons. by right. }
    exists st'. split; [exact Hrun|].
    split; [rewrite Hinbox; subst st1; simpl; by rewrite <- app_assoc|].
    split; [by rewrite Hqueue|]. split; [by rewrite Hinit|].
    intros x. rewrite Hevents. subst st1. simpl.
    destruct (decide (x = e)) as [->|Hne].
    + rewrite lookup_insert_eq, He. cbn [fmap option_fmap option_map]. f_equal.
      destruct (decide (e ∈ e :: l)) as [_|Hout];
        [|exfalso; apply Hout, elem_of_cons; by left].
      destruct (decide (e ∈ l)); [apply seeded_idempotent|reflexivity].
    + rewrite lookup_insert_ne by done.
      destruct (events st !! x) as [xv|]; [|reflexivity].
      cbn [fmap option_fmap option_map]. f_equal.
      destruct (decide (x ∈ l)) as [Hin|Hout],
        (decide (x ∈ e :: l)) as [Hin'|Hout']; try reflexivity.
      * exfalso. apply Hout', elem_of_cons. by right.
      * exfalso. apply elem_of_cons in Hin' as [->|Hin']; [by apply Hne|].
        by apply Hout.
Qed.

(** X15: with hook modules, [init_events] hands the root event and then
    the targets, by non-decreasing length of their data (equal lengths in
    target order), to the first hook module and to nobody else; the shared
    ingress queue is not touched, every seed gets the seed attributes (scope
    distance 0 among them) and keeps them, no other event changes, and the
    scan is marked as initialised. *)
Theorem init_events_feeds_the_first_hook scan first rest st :
  hook_modules scan = first :: rest ->
  (forall e, e ∈ root_event scan :: target_events scan ->
             is_Some (events st !! e)) ->
  let st' := exec (init_events scan) st in
  let length_of := data_length (events st) in
  exists sorted_events,
    sorted_events ≡ₚ target_events scan
    /\ StronglySorted (fun e e' => length_of e <= length_of e') sorted_events
    /\ (forall n, filter (fun e => length_of e = n) sorted_events
                  = filter (fun e => length_of e = n) (target_events scan))
    /\ module_inbox st'
       = module_inbox st
         ++ map (fun e => (first, e)) (root_event scan :: sorted_events)
    /\ incoming_event_queue st' = incoming_event_queue st
    /\ _finished_init st' = true
    /\ (forall e ev,
          e ∈ root_event scan :: target_events scan ->
          events st !! e = Some ev ->
          events st' !! e = Some (seeded scan ev))
    /\ (forall e,
          e ∉ root_event scan :: target_events scan ->
          events st' !! e = events st !! e).
Proof.
  intros Hhooks Hdom st' length_of.
  destruct (seeding_order_eq (events st) (target_events scan))
    as (Hperm & Hsorted & Hstable).
  set (sorted_events := map fst _) in *.
  exists sorted_events. split; [exact Hperm|]. split; [exact Hsorted|].
  split; [exact Hstable|].
  destruct (seeding_into_first_hook scan first rest
              (root_event scan :: sorted_events) st Hhooks)
    as (st1 & Hrun & Hinbox & Hqueue & Hinit & Hevents).
  { intros e He. apply Hdom. by rewrite <- Hperm. }
  assert (st' = with_finished_init true st1) as ->.
  { subst st'. unfold exec, init_events. rewrite fst_acatch.
    rewrite (bind_returns _ _ _ _ _
               (data_lengths_eq (target_events scan) st
                  (fun e He => Hdom e (proj2 (elem_of_cons _ _ _) (or_intror He))))).
    fold sorted_events.
    by rewrite (bind_returns _ _ _ _ _ Hrun). }
  simpl. split; [exact Hinbox|]. split; [exact Hqueue|].
  split; [reflexivity|]. split.
  - intros e ev He Hev. rewrite Hevents, Hev.
    cbn [fmap option_fmap option_map]. f_equal.
    destruct (decide (e ∈ root_event scan :: sorted_events)) as [_|Hout];
      [reflexivity|].
    exfalso. apply Hout. by rewrite Hperm.
  - intros e He. rewrite Hevents.
    destruct (events st !! e) as [ev|]; [|reflexivity].
    cbn [fmap option_fmap option_map]. f_equal.
    destruct (decide (e ∈ root_event scan :: sorted_events)) as [Hin|_];
      [|reflexivity].
    exfalso. apply He. by rewrite <- Hperm.
Qed.

Lemma init_events_feeds_the_first_hook_witness :
  let st' := exec (init_events (two_target_scan true)) (init two_target_store) in
  module_inbox st' = [(7%nat, 0%nat); (7%nat, 2%nat); (7%nat, 1%nat)]
  /\ incoming_event_queue st' = []
  /\ scope_distance <$> events st' !! 1%nat = Some 0.
Proof.
  cbv zeta.
  destruct (init_events_feeds_the_first_hook (two_target_scan true) 7%nat []
              (init two_target_store) eq_refl) as
    (sorted_events & _ & _ & _ & _ & Hqueue & _ & Hseeded & _).
  { intros e He. apply list_elem_of_In in He. simpl in He.
    destruct He as [<-|[<-|[<-|[]]]]; by eexists. }
  split; [vm_compute; reflexivity|]. split; [exact Hqueue|].
  rewrite (Hseeded 1%nat _ ltac:(apply list_elem_of_In; simpl; tauto) eq_refl).
  reflexivity.
Defined.

Lemma seed_event_onto_ingress scan e st ev sv :
  hook_modules scan = [] ->
  events st !! e = Some ev ->
  <[e := seeded scan ev]> (events st) !! default (root_event scan) (source ev)
    = Some sv ->
  seed_event scan e st
  = (with_queue (incoming_event_queue st ++ [(e, no_kwargs)])
       (with_events
          (<[e := set_scope_distance (scope_distance sv + 1) (seeded scan ev)]>
             (events st)) st),
     Returns tt).
Proof.
  intros Hhooks He Hsv.
  rewrite (seed_event_prepares scan e st ev He), Hhooks.
  destruct (seeded_attributes scan ev) as (_ & Hsd & _ & _ & Hsrc & _).
  erewrite queue_event_eq;
    [|simpl; apply lookup_insert_eq|exact Hsrc|simpl; exact Hsv].
  rewrite Hsd. simpl. unfold with_queue, with_events. simpl.
  by rewrite insert_insert_eq.
Qed.

Lemma seeding_onto_ingress scan l st :
  hook_modules scan = [] ->
  (forall e, e ∈ l -> is_Some (events st !! e)) ->
  is_Some (events st !! root_event scan) ->
  (forall e ev s, events st !! e = Some ev -> source ev = Some s ->
                  is_Some (events st !! s)) ->
  exists st',
    for_each l (seed_event scan) st = (st', Returns tt)
    /\ incoming_event_queue st'
       = incoming_event_queue st ++ map (fun e => (e, no_kwargs)) l
    /\ module_inbox st' = module_inbox st
    /\ _finished_init st' = _finished_init st
    /\ (forall x, is_Some (events st' !! x) <-> is_Some (events st !! x)).
Proof.
  intros Hhooks. revert st. induction l as [|e l IH]; intros st Hdom Hroot Hsrc.
  - exists st. simpl. rewrite app_nil_r. repeat split; done.
  - destruct (Hdom e) as [ev He]; [apply elem_of_cons; by left|].
    assert (is_Some (<[e := seeded scan ev]> (events st)
                       !! default (root_event scan) (source ev)))
      as [sv Hsv].
    { destruct (decide (default (root_event scan) (source ev) = e)) as [->|Hne];
        [rewrite lookup_insert_eq; by eexists|].
      rewrite lookup_insert_ne by done.
      destruct (source ev) as [s|] eqn:Hs; simpl; [by eapply Hsrc|exact Hroot]. }
    simpl. unfold bind at 1.
    rewrite (seed_event_onto_ingress scan e st ev sv Hhooks He Hsv).
    set (st1 := with_queue _ _).
    assert (forall x, is_Some (events st1 !! x) <-> is_Some (events st !! x))
      as Hdom1.
    { intros x. subst st1. simpl.
      destruct (decide (x = e)) as [->|Hne].
      - rewrite lookup_insert_eq, He. split; by eexists.
      - by rewrite lookup_insert_ne. }
    destruct (IH st1) as (st' & Hrun & Hqueue & Hinbox & Hinit & Hdom').
    { intros x Hx. apply Hdom1, Hdom, elem_of_cons. by right. }
    { by apply Hdom1. }
    { intros x xv s Hx Hs. apply Hdom1. subst st1. simpl in Hx.
      destruct (decide (x = e)) as [->|Hne].
      - rewrite lookup_insert_eq in Hx. injection Hx as <-. simpl in Hs.
        destruct (seeded_attributes scan ev) as (_ & _ & _ & _ & Hseeded & _).
        rewrite Hseeded in Hs. injection Hs as <-.
        destruct (source ev) as [s|] eqn:Hs; simpl; [by eapply Hsrc|exact Hroot].
      - rewrite lookup_insert_ne in Hx by done. by eapply Hsrc. }
    exists st'. split; [exact Hrun|].
    split; [rewrite Hqueue; subst st1; simpl; by rewrite <- app_assoc|].
    split; [by rewrite Hinbox|]. split; [by rewrite Hinit|].
    intros x. by rewrite Hdom', Hdom1.
Qed.

(** X16: without hook modules, when every seed and every source is an
    event of the store, [init_events] puts the root event and then the
    targets, by non-decreasing length of their data (equal lengths in target
    order), on the shared ingress queue with no keyword arguments, calls no
    module sink, creates or deletes no event, and marks the scan as
    initialised. *)
Theorem init_events_queues_seeds_by_length scan st :
  hook_modules scan = [] ->
  (forall e, e ∈ root_event scan :: target_events scan ->
             is_Some (events st !! e)) ->
  (forall e ev s, events st !! e = Some ev -> source ev = Some s ->
                  is_Some (events st !! s)) ->
  let st' := exec (init_events scan) st in
  let length_of := data_length (events st) in
  exists sorted_events,
    sorted_events ≡ₚ target_events scan
    /\ StronglySorted (fun e e' => length_of e <= length_of e') sorted_events
    /\ (forall n, filter (fun e => length_of e = n) sorted_events
                  = filter (fun e => length_of e = n) (target_events scan))
    /\ incoming_event_queue st'
       = incoming_event_queue st
         ++ map (fun e => (e, no_kwargs)) (root_event scan :: sorted_events)
    /\ module_inbox st' = module_inbox st
    /\ _finished_init st' = true
    /\ (forall x, is_Some (events st' !! x) <-> is_Some (events st !! x)).
Proof.
  intros Hhooks Hdom Hsrc st' length_of.
  destruct (seeding_order_eq (events st) (target_events scan))
    as (Hperm & Hsorted & Hstable).
  set (sorted_events := map fst _) in *.
  exists sorted_events. split; [exact Hperm|]. split; [exact Hsorted|].
  split; [exact Hstable|].
  destruct (seeding_onto_ingress scan (root_event scan :: sorted_events) st
              Hhooks)
    as (st1 & Hrun & Hqueue & Hinbox & Hinit & Hdom1).
  { intros e He. apply Hdom. by rewrite <- Hperm. }
  { apply Hdom, elem_of_cons. by left. }
  { exact Hsrc. }
  assert (st' = with_finished_init true st1) as ->.
  { subst st'. unfold exec, init_events. rewrite fst_acatch.
    rewrite (bind_returns _ _ _ _ _
               (data_lengths_eq (target_events scan) st
                  (fun e He => Hdom e (proj2 (elem_of_cons _ _ _) (or_intror He))))).
    fold sorted_events.
    by rewrite (bind_returns _ _ _ _ _ Hrun). }
  simpl. split; [exact Hqueue|]. split; [exact Hinbox|].
  split; [reflexivity|exact Hdom1].
Qed.

Lemma init_events_queues_seeds_by_length_witness :
  incoming_event_queue
    (exec (init_events (two_target_scan false)) (init two_target_store))
  = [(0%nat, no_kwargs); (2%nat, no_kwargs); (1%nat, no_kwargs)].
Proof.
  destruct (init_events_queues_seeds_by_length (two_target_scan false)
              (init two_target_store) eq_refl) as
    (sorted_events & _ & _ & _ & Hqueue & _).
  { intros e He. apply list_elem_of_In in He. simpl in He.
    destruct He as [<-|[<-|[<-|[]]]]; by eexists. }
  { intros e ev s He Hs.
    unfold init, two_target_store in He. simpl in He.
    repeat (apply lookup_insert_Some in He as [[<- <-]|[? He]]);
      [..|by rewrite lookup_empty in He].
    all: vm_compute in Hs; try discriminate; injection Hs as <-; by eexists. }
  vm_compute. reflexivity.
Defined.

(** ** Picking the next event *)

Section Pickup.

Variable scan : Scan.
Variable get_nowait :
  list (nat * Kwargs) -> option ((nat * Kwargs) * list (nat * Kwargs)).
Variable weighted_shuffle : list QueueRef -> list Z -> list QueueRef.

(** What is assumed of a queue: an empty one gives nothing, any other one
    gives one of its items and keeps the rest. *)
Hypothesis get_nowait_empty : get_nowait [] = None.
Hypothesis get_nowait_item :
  forall items, items <> [] ->
    exists item rest, get_nowait items = Some (item, rest)
                      /\ items ≡ₚ item :: rest.

(** What is assumed of the shuffle: it permutes the queues it is given. *)
Hypothesis weighted_shuffle_permutes :
  weighted_shuffle (incoming_queues scan) (module_priority_weights scan)
  ≡ₚ incoming_queues scan.

Let nothing_in (q : QueueRef) (w : Worker) : Prop :=
  queue_items q w = None \/ queue_items q w = Some [].

Lemma queue_get_nowait_cases q w :
  match queue_get_nowait get_nowait q w with
  | Fetch (item, w') =>
      exists items rest,
        queue_items q w = Some items /\ items ≡ₚ item :: rest
        /\ w' = set_queue_items q rest w
  | QueueEmpty => queue_items q w = Some []
  | FetchError x => queue_items q w = None /\ x = AttributeError
  end.
Proof.
  unfold queue_get_nowait.
  destruct (queue_items q w) as [items|]; [|done].
  destruct items as [|item0 items0].
  - by rewrite get_nowait_empty.
  - destruct (get_nowait_item (item0 :: items0)) as (item & rest & -> & Hperm);
      [done|].
    by exists (item0 :: items0), rest.
Qed.

Lemma first_available_cases queues w :
  match first_available get_nowait queues w with
  | Fetch (item, w') =>
      exists q items rest,
        q ∈ queues /\ queue_items q w = Some items /\ items ≡ₚ item :: rest
        /\ w' = set_queue_items q rest w
  | QueueEmpty => forall q, q ∈ queues -> nothing_in q w
  | FetchError _ => False
  end.
Proof.
  induction queues as [|q queues IH]; simpl.
  - intros q Hq. by apply elem_of_nil in Hq.
  - pose proof (queue_get_nowait_cases q w) as Hq.
    destruct (queue_get_nowait get_nowait q w) as [[item w']| |x].
    + destruct Hq as (items & rest & Hitems & Hperm & ->).
      exists q, items, rest. split; [apply elem_of_cons; by left|done].
    + destruct (first_available get_nowait queues w) as [[item w']| |x].
      * destruct IH as (q' & items & rest & Hin & H).
        exists q', items, rest. split; [apply elem_of_cons; by right|done].
      * intros q' [->|Hin]%elem_of_cons; [by right|by apply IH].
      * done.
    + destruct Hq as [Hq ->].
      destruct (first_available get_nowait queues w) as [[item w']| |x'].
      * destruct IH as (q' & items & rest & Hin & H).
        exists q', items, rest. split; [apply elem_of_cons; by right|done].
      * intros q' [->|Hin]%elem_of_cons; [by left|by apply IH].
      * done.
Qed.

Lemma get_event_from_modules_cases w :
  match get_event_from_modules scan get_nowait weighted_shuffle w with
  | Fetch (item, w') =>
      exists q items rest,
        q ∈ incoming_queues scan
        /\ queue_items q w = Some items
        /\ items ≡ₚ item :: rest
        /\ w' = set_queue_items q rest w
  | QueueEmpty => forall q, q ∈ incoming_queues scan -> nothing_in q w
  | FetchError _ => False
  end.
Proof.
  unfold get_event_from_modules.
  pose proof (first_available_cases
                (weighted_shuffle (incoming_queues scan)
                   (module_priority_weights scan)) w) as Hcases.
  destruct (first_available _ _ _) as [[item w']| |x]; [| |done].
  - destruct Hcases as (q & items & rest & Hin & H).
    exists q, items, rest. split; [by rewrite <- weighted_shuffle_permutes|done].
  - intros q Hq. apply Hcases. by rewrite weighted_shuffle_permutes.
Qed.

Lemma get_event_from_modules_empty w :
  get_event_from_modules scan get_nowait weighted_shuffle w = QueueEmpty
  <-> forall q, q ∈ incoming_queues scan -> nothing_in q w.
Proof.
  pose proof (get_event_from_modules_cases w) as Hcases.
  destruct (get_event_from_modules _ _ _ _) as [[item w']| |x]; [| |done].
  - split; [discriminate|]. intros Hnone. exfalso.
    destruct Hcases as (q & items & rest & Hin & Hitems & Hperm & _).
    destruct (Hnone q Hin) as [Hq|Hq]; rewrite Hitems in Hq; [discriminate|].
    injection Hq as ->. by apply Permutation_nil_cons in Hperm.
  - split; [intros _; exact Hcases|reflexivity].
Qed.

(** X17: [get_event_from_modules] never fails with anything but
    [QueueEmpty].  It raises [QueueEmpty] exactly when every incoming queue
    is empty or [None]; otherwise it returns an item of one incoming queue,
    and that queue loses this item and nothing else changes. *)
Theorem get_event_from_modules_takes_one_item w :
  match get_event_from_modules scan get_nowait weighted_shuffle w with
  | Fetch (item, w') =>
      exists q items rest,
        q ∈ incoming_queues scan
        /\ queue_items q w = Some items
        /\ items ≡ₚ item :: rest
        /\ w' = set_queue_items q rest w
  | QueueEmpty =>
      forall q, q ∈ incoming_queues scan ->
                queue_items q w = None \/ queue_items q w = Some []
  | FetchError _ => False
  end
  /\ (get_event_from_modules scan get_nowait weighted_shuffle w = QueueEmpty
      <-> forall q, q ∈ incoming_queues scan ->
                    queue_items q w = None \/ queue_items q w = Some []).
Proof.
  split; [apply get_event_from_modules_cases|apply get_event_from_modules_empty].
Qed.

Lemma queue_items_set q' q rest w :
  queue_items q' (set_queue_items q rest w)
  = if decide (q' = q) then Some rest else queue_items q' w.
Proof.
  destruct (decide (q' = q)) as [->|Hne].
  - destruct q as [|r]; simpl; [reflexivity|apply lookup_insert_eq].
  - destruct q as [|r], q' as [|r']; simpl; try reflexivity; try congruence.
    apply lookup_insert_ne. congruence.
Qed.

Lemma sum_qsize_from queues w total n :
  sum_qsize queues w total = Some n ->
  total <= n
  /\ (n = total <-> forall q, q ∈ queues -> queue_items q w = Some []).
Proof.
  revert total. induction queues as [|q queues IH]; intros total; simpl.
  - intros [= <-]. split; [lia|]. split; [|done].
    intros _ q Hq. by apply elem_of_nil in Hq.
  - destruct (queue_items q w) as [items|] eqn:Hq; [|discriminate].
    intros Hsum. destruct (IH _ Hsum) as [Hle Hzero].
    split; [lia|]. split.
    + intros ->. assert (length items = 0%nat) as Hlen by lia.
      apply nil_length_inv in Hlen as ->.
      intros q' [->|Hin]%elem_of_cons; [exact Hq|].
      apply Hzero; [simpl; lia|exact Hin].
    + intros Hall.
      assert (items = []) as ->.
      { specialize (Hall q). rewrite Hq in Hall.
        by injection (Hall (proj2 (elem_of_cons _ _ _) (or_introl eq_refl))). }
      simpl in *. rewrite Z.add_0_r in Hzero. apply Hzero.
      intros q' Hin. apply Hall, elem_of_cons. by right.
Qed.

Lemma sum_qsize_all_present queues w total n q :
  sum_qsize queues w total = Some n -> q ∈ queues ->
  is_Some (queue_items q w).
Proof.
  revert total. induction queues as [|q' queues IH]; intros total Hsum Hq;
    [by apply elem_of_nil in Hq|].
  simpl in Hsum. destruct (queue_items q' w) as [items'|] eqn:Hq';
    [|discriminate].
  apply elem_of_cons in Hq as [->|Hq]; [by eexists|by eapply IH].
Qed.

Lemma sum_qsize_shift queues w total d :
  sum_qsize queues w (total + d)
  = (fun n => n + d) <$> sum_qsize queues w total.
Proof.
  revert total. induction queues as [|q queues IH]; intros total; simpl;
    [reflexivity|].
  destruct (queue_items q w) as [items|]; [|reflexivity].
  rewrite <- IH. f_equal. lia.
Qed.

Lemma sum_qsize_elsewhere queues q rest w total :
  q ∉ queues ->
  sum_qsize queues (set_queue_items q rest w) total = sum_qsize queues w total.
Proof.
  revert total. induction queues as [|q' queues IH]; intros total Hnotin; simpl;
    [reflexivity|].
  rewrite queue_items_set.
  destruct (decide (q' = q)) as [->|Hne];
    [exfalso; apply Hnotin, elem_of_cons; by left|].
  destruct (queue_items q' w); [|reflexivity].
  apply IH. intros Hin. apply Hnotin, elem_of_cons. by right.
Qed.

Lemma sum_qsize_after_get queues q items item rest w total n :
  NoDup queues ->
  q ∈ queues ->
  queue_items q w = Some items ->
  items ≡ₚ item :: rest ->
  sum_qsize queues w total = Some n ->
  sum_qsize queues (set_queue_items q rest w) total = Some (n - 1).
Proof.
  intros Hnodup Hin Hq Hperm. revert total.
  induction Hnodup as [|q' queues Hnotin Hnodup IH]; intros total; simpl;
    [by apply elem_of_nil in Hin|].
  rewrite queue_items_set.
  destruct (queue_items q' w) as [items'|] eqn:Hq'; [|discriminate].
  intros Hsum. destruct (decide (q' = q)) as [->|Hne].
  - assert (items' = items) as -> by congruence.
    assert (length items = S (length rest)) as Hlen by (by rewrite Hperm).
    rewrite sum_qsize_elsewhere by done.
    replace (total + Z.of_nat (length rest))
      with (total + Z.of_nat (length items) + (-1)) by lia.
    rewrite sum_qsize_shift, Hsum. simpl. f_equal.
  - apply IH; [|exact Hsum].
    apply elem_of_cons in Hin as [->|Hin]; [done|exact Hin].
Qed.

Lemma NoDup_incoming_queues :
  NoDup (modules_values scan) -> NoDup (incoming_queues scan).
Proof.
  intros Hnodup. unfold incoming_queues. constructor.
  - intros (r & Hr & _)%list_elem_of_fmap. discriminate.
  - apply NoDup_fmap_2; [intros r r' [= ->]; reflexivity|].
    unfold non_hook_modules.
    apply NoDup_filter. by rewrite modules_by_priority_perm.
Qed.

(** X18: when no module is registered twice and [incoming_qsize] has a
    value, the value is not negative, it is 0 exactly when
    [get_event_from_modules] raises [QueueEmpty], and taking an event lowers
    it by one. *)
Theorem incoming_qsize_counts_what_can_be_taken w n :
  NoDup (modules_values scan) ->
  incoming_qsize scan w = Some n ->
  0 <= n
  /\ (n = 0
      <-> get_event_from_modules scan get_nowait weighted_shuffle w = QueueEmpty)
  /\ (forall item w',
        get_event_from_modules scan get_nowait weighted_shuffle w
        = Fetch (item, w') ->
        incoming_qsize scan w' = Some (n - 1)).
Proof.
  intros Hnodup Hsize. unfold incoming_qsize in *.
  destruct (sum_qsize_from _ _ _ _ Hsize) as [Hle Hzero].
  split; [exact Hle|]. split.
  - rewrite Hzero, get_event_from_modules_empty. split.
    + intros Hall q Hq. right. by apply Hall.
    + intros Hall q Hq. destruct (Hall q Hq) as [Hnone|Hnil]; [|exact Hnil].
      destruct (sum_qsize_all_present _ _ _ _ q Hsize Hq) as [items Hitems].
      congruence.
  - intros item w' Hfetch.
    pose proof (get_event_from_modules_cases w) as Hcases.
    rewrite Hfetch in Hcases.
    destruct Hcases as (q & items & rest & Hin & Hitems & Hperm & ->).
    eapply sum_qsize_after_get; eauto using NoDup_incoming_queues.
Qed.

End Pickup.

(** ** The worker loop *)

Section WorkerFacts.

Variable scan : Scan.
Variable tuple_hash : Z -> string -> Z.
Variable get_nowait :
  list (nat * Kwargs) -> option ((nat * Kwargs) * list (nat * Kwargs)).
Variable weighted_shuffle : list QueueRef -> list Z -> list QueueRef.

Lemma worker_pass_behind_hooks h w :
  last (hook_modules scan) = Some h ->
  let w' := fst (worker_pass scan tuple_hash get_nowait weighted_shuffle w) in
  incoming_event_queue (manager w) ⊆+ incoming_event_queue (manager w')
  /\ forall r, r <> h ->
       outgoing_event_queue w' !! r = outgoing_event_queue w !! r.
Proof.
  intros Hlast. unfold worker_pass. rewrite Hlast.
  unfold queue_get_nowait. simpl.
  destruct (outgoing_event_queue w !! h) as [items|]; [|done].
  destruct (get_nowait items) as [[[event kwargs] rest]|]; [|done].
  simpl.
  pose proof (emit_event_keeps_queued scan tuple_hash event kwargs (manager w))
    as Hqueue. unfold keeps_queued in Hqueue.
  destruct (emit_event scan tuple_hash event kwargs (manager w))
    as [m [[]|x]]; simpl in *;
    (split; [exact Hqueue|intros r Hr; by apply lookup_insert_ne]).
Qed.

(** X19: with hook modules, a worker reads only the outgoing queue of the
    last hook module: over any number of passes of its loop, every item
    that was on the shared ingress queue is still on it, as many times as
    before, and the outgoing queue of every other module is as it was. *)
Theorem hooked_worker_takes_nothing_off_the_ingress h passes w :
  last (hook_modules scan) = Some h ->
  let w' := _worker_loop scan tuple_hash get_nowait weighted_shuffle passes w in
  incoming_event_queue (manager w) ⊆+ incoming_event_queue (manager w')
  /\ forall r, r <> h ->
       outgoing_event_queue w' !! r = outgoing_event_queue w !! r.
Proof.
  intros Hlast. revert w. induction passes as [|n IH]; intros w; simpl.
  - split; [reflexivity|done].
  - pose proof (worker_pass_behind_hooks h w Hlast) as [Hqueue Hothers].
    simpl in Hqueue, Hothers.
    destruct (worker_pass scan tuple_hash get_nowait weighted_shuffle w)
      as [w1 pass]. simpl in *.
    destruct pass; [| |by split].
    + destruct (IH w1) as [Hqueue' Hothers'].
      split; [by etransitivity|].
      intros r Hr. by rewrite Hothers', Hothers.
    + destruct (IH w1) as [Hqueue' Hothers'].
      split; [by etransitivity|].
      intros r Hr. by rewrite Hothers', Hothers.
Qed.

Hypothesis get_nowait_empty : get_nowait [] = None.
Hypothesis get_nowait_item :
  forall items, items <> [] ->
    exists item rest, get_nowait items = Some (item, rest)
                      /\ items ≡ₚ item :: rest.
Hypothesis weighted_shuffle_permutes :
  weighted_shuffle (incoming_queues scan) (module_priority_weights scan)
  ≡ₚ incoming_queues scan.

Lemma idle_pass w :
  match last (hook_modules scan) with
  | Some h => outgoing_event_queue w !! h = Some []
  | None =>
      forall q, q ∈ incoming_queues scan ->
                queue_items q w = None \/ queue_items q w = Some []
  end ->
  worker_pass scan tuple_hash get_nowait weighted_shuffle w = (w, Slept).
Proof.
  unfold worker_pass. destruct (last (hook_modules scan)) as [h|].
  - intros Hempty. unfold queue_get_nowait. simpl.
    by rewrite Hempty, get_nowait_empty.
  - intros Hnothing.
    by rewrite (proj2 (get_event_from_modules_empty scan get_nowait
                         weighted_shuffle get_nowait_empty get_nowait_item
                         weighted_shuffle_permutes w) Hnothing).
Qed.

(** X20: a worker that finds nothing to take.  With an empty queue behind
    the last hook, or without hooks and with every incoming queue empty or
    [None], any number of passes leaves everything as it is.  With hooks and
    no queue behind the last hook, the pass ends the loop with an
    [AttributeError], which without hooks is skipped. *)
Theorem worker_with_nothing_to_take w :
  (forall h, last (hook_modules scan) = Some h ->
             outgoing_event_queue w !! h = Some [] ->
             forall passes,
               _worker_loop scan tuple_hash get_nowait weighted_shuffle passes w
               = w)
  /\ (last (hook_modules scan) = None ->
      (forall q, q ∈ incoming_queues scan ->
                 queue_items q w = None \/ queue_items q w = Some []) ->
      forall passes,
        _worker_loop scan tuple_hash get_nowait weighted_shuffle passes w = w)
  /\ (forall h, last (hook_modules scan) = Some h ->
                outgoing_event_queue w !! h = None ->
                worker_pass scan tuple_hash get_nowait weighted_shuffle w
                = (w, Crashed AttributeError)).
Proof.
  split; [|split].
  - intros h Hlast Hempty passes.
    induction passes as [|n IH]; [reflexivity|]. simpl.
    rewrite idle_pass; [exact IH|]. by rewrite Hlast.
  - intros Hlast Hnothing passes.
    induction passes as [|n IH]; [reflexivity|]. simpl.
    rewrite idle_pass; [exact IH|]. by rewrite Hlast.
  - intros h Hlast Hnone. unfold worker_pass, queue_get_nowait.
    rewrite Hlast. simpl. by rewrite Hnone.
Qed.

End WorkerFacts.

(** ** The assumptions on queues and shuffle, met by simple ones *)

Lemma pop_head_item items :
  items <> [] ->
  exists item rest, pop_head items = Some (item, rest) /\ items ≡ₚ item :: rest.
Proof. destruct items as [|item rest]; [done|]. intros _. by exists item, rest. Qed.

Lemma reversing_shuffle_permutes queues weights :
  reversing_shuffle queues weights ≡ₚ queues.
Proof. unfold reversing_shuffle. symmetry. apply Permutation_rev. Qed.

Lemma get_event_from_modules_takes_one_item_witness :
  get_event_from_modules (example_scan 0) pop_head reversing_shuffle idle_worker
  = QueueEmpty
  /\ exists w',
       get_event_from_modules (example_scan 0) pop_head reversing_shuffle
         busy_worker = Fetch ((1%nat, no_kwargs), w').
Proof.
  split.
  - apply (get_event_from_modules_takes_one_item (example_scan 0) pop_head
             reversing_shuffle eq_refl pop_head_item
             (reversing_shuffle_permutes _ _) idle_worker).
    intros q Hq. apply list_elem_of_In in Hq. simpl in Hq.
    destruct Hq as [<-|[<-|[]]]; by right.
  - eexists. reflexivity.
Defined.

Lemma incoming_qsize_counts_what_can_be_taken_witness :
  incoming_qsize (example_scan 0) busy_worker = Some 2
  /\ forall item w',
       get_event_from_modules (example_scan 0) pop_head reversing_shuffle
         busy_worker = Fetch (item, w') ->
       incoming_qsize (example_scan 0) w' = Some 1.
Proof.
  split; [reflexivity|].
  apply (incoming_qsize_counts_what_can_be_taken (example_scan 0) pop_head
           reversing_shuffle eq_refl pop_head_item
           (reversing_shuffle_permutes _ _) busy_worker 2
           (NoDup_singleton 7%nat) eq_refl).
Defined.

Lemma hooked_worker_takes_nothing_off_the_ingress_witness :
  let w' := _worker_loop hooked_scan example_tuple_hash pop_head
              reversing_shuffle 3 hooked_worker in
  incoming_event_queue (manager hooked_worker)
    ⊆+ incoming_event_queue (manager w')
  /\ outgoing_event_queue w' !! 3%nat = Some []
  /\ outgoing_event_queue w' !! 6%nat = Some [(1%nat, no_kwargs)].
Proof.
  cbv zeta.
  destruct (hooked_worker_takes_nothing_off_the_ingress hooked_scan
              example_tuple_hash pop_head reversing_shuffle 3%nat 3
              hooked_worker eq_refl) as [Hprefix Hothers].
  split; [exact Hprefix|]. split; [vm_compute; reflexivity|].
  rewrite Hothers by discriminate. reflexivity.
Defined.

Lemma worker_with_nothing_to_take_witness :
  _worker_loop hooked_scan example_tuple_hash pop_head reversing_shuffle 5
    idle_hooked_worker = idle_hooked_worker.
Proof.
  destruct (worker_with_nothing_to_take hooked_scan example_tuple_hash
              pop_head reversing_shuffle eq_refl pop_head_item
              (reversing_shuffle_permutes _ _) idle_hooked_worker)
    as (Hhooked & _).
  apply (Hhooked 3%nat eq_refl eq_refl).
Defined.

(** ** Status of the queues *)

Section QueueStatusFacts.

Variable scan : Scan.
Variable event_type : Event -> option string.

Let occurrences (store : gmap nat Event) (t : string)
    (items : list (nat * Kwargs)) : Z :=
  Z.of_nat (length (filter (fun item => type_of_item event_type store item = Some t) items)).

Lemma count_event_lookup store event_types item t :
  default 0 (count_event event_type store event_types item !! t)
  = default 0 (event_types !! t) + occurrences store t [item].
Proof.
  unfold count_event, occurrences. rewrite (filter_cons _ item []), filter_nil.
  destruct (type_of_item event_type store item) as [t'|] eqn:Ht.
  - destruct (decide (t' = t)) as [->|Hne].
    + rewrite decide_True by done. simpl.
      destruct (event_types !! t) as [c|] eqn:Hc;
        rewrite lookup_insert_eq; simpl; lia.
    + rewrite decide_False by congruence. simpl.
      destruct (event_types !! t') as [c|];
        rewrite lookup_insert_ne by done; lia.
  - rewrite decide_False by done. simpl. lia.
Qed.

Lemma count_event_positive store event_types item :
  map_Forall (fun _ c => 1 <= c) event_types ->
  map_Forall (fun _ c => 1 <= c) (count_event event_type store event_types item).
Proof.
  intros Hpos. unfold count_event.
  destruct (type_of_item event_type store item) as [t|]; [|exact Hpos].
  destruct (event_types !! t) as [c|] eqn:Hc.
  - apply map_Forall_insert_2; [|exact Hpos]. specialize (Hpos t c Hc).
    simpl in Hpos. lia.
  - apply map_Forall_insert_2; [lia|exact Hpos].
Qed.

Lemma count_items_lookup store items event_types t :
  map_Forall (fun _ c => 1 <= c) event_types ->
  let counted := fold_left (count_event event_type store) items event_types in
  default 0 (counted !! t)
  = default 0 (event_types !! t) + occurrences store t items
  /\ map_Forall (fun _ c => 1 <= c) counted.
Proof.
  revert event_types. induction items as [|item items IH];
    intros event_types Hpos; simpl.
  - split; [unfold occurrences; simpl; lia|exact Hpos].
  - destruct (IH _ (count_event_positive store event_types item Hpos))
      as [Hcount Hpos'].
    split; [|exact Hpos']. rewrite Hcount, count_event_lookup.
    unfold occurrences. rewrite (filter_cons _ item items),
      (filter_cons _ item []), filter_nil.
    destruct (decide _); simpl; lia.
Qed.

Lemma count_queues_lookup queues w event_types counts t :
  map_Forall (fun _ c => 1 <= c) event_types ->
  count_queues event_type queues w event_types = Some counts ->
  default 0 (counts !! t)
  = default 0 (event_types !! t)
    + occurrences (events (manager w)) t (queued_items queues w)
  /\ map_Forall (fun _ c => 1 <= c) counts.
Proof.
  revert event_types. induction queues as [|q queues IH];
    intros event_types Hpos; simpl.
  - intros [= <-]. split; [unfold occurrences; simpl; lia|exact Hpos].
  - destruct (queue_items q w) as [items|] eqn:Hq; [|discriminate].
    intros Hcounts.
    destruct (count_items_lookup (events (manager w)) items event_types t Hpos)
      as [Hitems Hpos'].
    destruct (IH _ Hpos' Hcounts) as [Hrest Hpos''].
    split; [|exact Hpos'']. rewrite Hrest, Hitems.
    unfold queued_items, occurrences. simpl. rewrite Hq. simpl.
    rewrite filter_app, length_app. lia.
Qed.

(** X21: [queued_event_types] maps each event type to the number of
    queued items, over all incoming queues, whose event has that type; a
    type that no queued event has is not a key. *)
Theorem queued_event_types_counts_by_type w counts t :
  queued_event_types scan event_type w = Some counts ->
  let number :=
    Z.of_nat
      (length
         (filter (fun item =>
                    type_of_item event_type (events (manager w)) item = Some t)
            (queued_items (incoming_queues scan) w))) in
  counts !! t = (if number =? 0 then None else Some number).
Proof.
  intros Hcounts number. unfold queued_event_types in Hcounts.
  destruct (count_queues_lookup _ w ∅ counts t (map_Forall_empty _) Hcounts)
    as [Hcount Hpos].
  rewrite lookup_empty in Hcount. unfold occurrences in Hcount.
  fold number in Hcount.
  destruct (counts !! t) as [c|] eqn:Hc; simpl in Hcount.
  - specialize (Hpos t c Hc). simpl in Hpos.
    destruct (number =? 0) eqn:Hzero; [apply Z.eqb_eq in Hzero; lia|].
    f_equal. lia.
  - assert (number = 0) as -> by lia. reflexivity.
Qed.

End QueueStatusFacts.

Lemma queued_event_types_counts_by_type_witness :
  exists counts,
    queued_event_types (example_scan 0) example_event_type busy_worker
    = Some counts
    /\ counts !! "DNS_NAME" = Some 2
    /\ counts !! "SCAN" = None.
Proof.
  eexists. split; [reflexivity|].
  split.
  - rewrite (queued_event_types_counts_by_type (example_scan 0)
               example_event_type busy_worker _ "DNS_NAME" eq_refl).
    reflexivity.
  - rewrite (queued_event_types_counts_by_type (example_scan 0)
               example_event_type busy_worker _ "SCAN" eq_refl).
    reflexivity.
Defined.

(** ** Quiescence *)

Lemma sum_qsize_None queues w total :
  sum_qsize queues w total = None
  <-> exists q, q ∈ queues /\ queue_items q w = None.
Proof.
  revert total. induction queues as [|q queues IH]; intros total; simpl.
  - split; [discriminate|]. intros (q & Hq & _). by apply elem_of_nil in Hq.
  - destruct (queue_items q w) as [items|] eqn:Hq.
    + rewrite IH. split.
      * intros (q' & Hq' & Hnone). exists q'.
        split; [apply elem_of_cons; by right|exact Hnone].
      * intros (q' & Hq' & Hnone). exists q'. split; [|exact Hnone].
        apply elem_of_cons in Hq' as [->|Hq']; [congruence|exact Hq'].
    + split; [intros _|reflexivity].
      exists q. split; [apply elem_of_cons; by left|exact Hq].
Qed.

Section Quiescence.

Variable scan : Scan.
Variable get_nowait :
  list (nat * Kwargs) -> option ((nat * Kwargs) * list (nat * Kwargs)).
Variable weighted_shuffle : list QueueRef -> list Z -> list QueueRef.

Hypothesis get_nowait_empty : get_nowait [] = None.
Hypothesis get_nowait_item :
  forall items, items <> [] ->
    exists item rest, get_nowait items = Some (item, rest)
                      /\ items ≡ₚ item :: rest.
Hypothesis weighted_shuffle_permutes :
  weighted_shuffle (incoming_queues scan) (module_priority_weights scan)
  ≡ₚ incoming_queues scan.

(** X22: [running] is false exactly when no task is counted and every
    incoming queue is there and empty, and then [get_event_from_modules]
    raises [QueueEmpty]; [running] fails exactly when an incoming queue is
    [None]. *)
Theorem not_running_means_nothing_to_take active_tasks w :
  (running scan active_tasks w = Some false
   <-> active_tasks <= 0
       /\ forall q, q ∈ incoming_queues scan -> queue_items q w = Some [])
  /\ (running scan active_tasks w = Some false ->
      get_event_from_modules scan get_nowait weighted_shuffle w = QueueEmpty)
  /\ (running scan active_tasks w = None
      <-> exists q, q ∈ incoming_queues scan /\ queue_items q w = None).
Proof.
  assert (running scan active_tasks w = Some false
          <-> active_tasks <= 0
              /\ forall q, q ∈ incoming_queues scan -> queue_items q w = Some [])
    as Hquiet.
  { unfold running, incoming_qsize.
    destruct (sum_qsize (incoming_queues scan) w 0) as [n|] eqn:Hsize.
    - destruct (sum_qsize_from _ _ _ _ Hsize) as [Hle Hzero]. split.
      + intros [= Hfalse]. apply orb_false_iff in Hfalse as [Htasks Hn].
        apply Z.ltb_ge in Htasks, Hn. split; [exact Htasks|].
        apply Hzero. lia.
      + intros [Htasks Hall]. apply Hzero in Hall as ->. f_equal.
        apply orb_false_iff. split; apply Z.ltb_ge; lia.
    - split; [discriminate|]. intros [_ Hall]. exfalso.
      apply sum_qsize_None in Hsize as (q & Hq & Hnone).
      rewrite (Hall q Hq) in Hnone. discriminate. }
  split; [exact Hquiet|]. split.
  - intros Hfalse. apply Hquiet in Hfalse as [_ Hall].
    apply (get_event_from_modules_empty scan get_nowait weighted_shuffle
             get_nowait_empty get_nowait_item weighted_shuffle_permutes).
    intros q Hq. right. by apply Hall.
  - unfold running, incoming_qsize. rewrite <- (sum_qsize_None _ w 0).
    destruct (sum_qsize (incoming_queues scan) w 0); split; done.
Qed.

End Quiescence.

Lemma not_running_means_nothing_to_take_witness :
  running (example_scan 0) 0 idle_worker = Some false
  /\ get_event_from_modules (example_scan 0) pop_head reversing_shuffle
       idle_worker = QueueEmpty.
Proof.
  split; [reflexivity|].
  apply (not_running_means_nothing_to_take (example_scan 0) pop_head
           reversing_shuffle eq_refl pop_head_item
           (reversing_shuffle_permutes _ _) 0 idle_worker).
  reflexivity.
Defined.
